(** * qparams: search-request validation and the search-handler middleware

    A shallow embedding of [handlers/qparams/qparams.go] of golazy.

    - Go [string] is [string]; [LogicalOperator], [RelationalOperator] and
      [OrderDirection] are named string types, so they are [string] too.
    - Go [int] is [Z]: the package only compares integers, it never does
      arithmetic on them, so no wrap-around can occur.
    - [*int] and [*FilterGroup] are [option]; [nil] is [None].
    - A [map[K]struct{}] is a Go reference: the package variables and
      every [config] hold references to the same map objects.  The map
      objects live in a store ([gmap loc (gset string)]) and the variables
      and the [config] fields hold locations.
    - [error] values are kept as the call that built them ([errors.New] or
      [fmt.Errorf] with its format and arguments); [Error] renders them.
    - The handler's calls to its collaborators (the JSON decoder, the error
      callback, the next handler) are recorded as a list of events. *)

From Stdlib Require Import ZArith Lia Ascii String.
From stdpp Require Import base strings gmap list pretty.

Set Warnings "-clear-no-such-hyp".

Open Scope string_scope.
Open Scope Z_scope.
Open Scope list_scope.

(** ** Operators *)

Module Operators.

Definition LogicalOperator := string.

Definition AndOperator : LogicalOperator := "and".
Definition OrOperator : LogicalOperator := "or".

Definition LogicalOperator_Symbol (o : LogicalOperator) : string :=
  if String.eqb o OrOperator then OrOperator
  else AndOperator.

Definition RelationalOperator := string.

Definition EqualsOperator : RelationalOperator := "eq".
Definition NotEqualsOperator : RelationalOperator := "ne".
Definition GreaterThanOperator : RelationalOperator := "gt".
Definition GreaterThanEqualsOperator : RelationalOperator := "gte".
Definition LowerThanOperator : RelationalOperator := "lt".
Definition LowerThanEqualsOperator : RelationalOperator := "lte".
Definition LikeOperator : RelationalOperator := "like".
Definition ILikeOperator : RelationalOperator := "ilike".
Definition InOperator : RelationalOperator := "in".

Definition RelationalOperator_Symbol (o : RelationalOperator) : string :=
  if String.eqb o NotEqualsOperator then "<>"
  else if String.eqb o GreaterThanOperator then ">"
  else if String.eqb o GreaterThanEqualsOperator then ">="
  else if String.eqb o LowerThanOperator then "<"
  else if String.eqb o LowerThanEqualsOperator then "<="
  else if String.eqb o LikeOperator then "like"
  else if String.eqb o ILikeOperator then "ilike"
  else if String.eqb o InOperator then "in"
  else "=".

Definition OrderDirection := string.

Definition OrderAsc : OrderDirection := "asc".
Definition OrderDesc : OrderDirection := "desc".

Definition OrderDirection_Symbol (d : OrderDirection) : string :=
  if String.eqb d OrderDesc then OrderDesc
  else OrderAsc.

(** The tokens of the two operator tables [logicalOperators] and
    [relationalOperators]. *)
Definition logicalOperators_keys : list LogicalOperator :=
  [AndOperator; OrOperator].

Definition relationalOperators_keys : list RelationalOperator :=
  [EqualsOperator; NotEqualsOperator; GreaterThanOperator;
   GreaterThanEqualsOperator; LowerThanOperator; LowerThanEqualsOperator;
   LikeOperator; ILikeOperator; InOperator].

End Operators.
Export Operators.

(** ** The expression model *)

Record Filter := mkFilter {
  Filter_Field : string;
  Filter_Op : RelationalOperator;
  Filter_Value : string
}.

#[warnings="-register-all"]
Inductive FilterGroup := mkFilterGroup {
  Group_Op : LogicalOperator;
  Group_Filters : list Filter;
  Group_Groups : list FilterGroup
}.

Record OrderClause := mkOrderClause {
  Order_Field : string;
  Order_Direction : OrderDirection
}.

Record SearchRequest := mkSearchRequest {
  Groups : option FilterGroup;
  OrderBy : list OrderClause;
  Limit : option Z;
  Offset : option Z
}.

(** ** Errors *)

Inductive fmtarg :=
  | ArgInt (n : Z)
  | ArgString (s : string).

Inductive error :=
  | errors_New (text : string)
  | fmt_Errorf (format : string) (args : list fmtarg)
  | json_error (text : string).

(** The arguments an error was built from. *)
Definition error_args (e : error) : list fmtarg :=
  match e with
  | fmt_Errorf _ args => args
  | errors_New _ | json_error _ => []
  end.

(** ** The store of map objects, the package variables and [config] *)

Definition loc := nat.

Inductive ErrorHandler :=
  | badRequestHandler
  | userHandler (id : nat).

Record Globals := mkGlobals {
  defaultQueryParam : string;
  defaultSearchMandatory : bool;
  defaultLogicalOperators : loc;
  defaultRelationalOperators : loc;
  defaultLimit : option Z;
  defaultErrorHandler : ErrorHandler;
  defaultFilterFields : loc;
  defaultOrderFields : loc
}.

Record State := mkState {
  globals : Globals;
  maps : gmap loc (gset string)
}.

Record config := mkConfig {
  queryParam : string;
  isSearchMandatory : bool;
  allowedLogicalOperators : loc;
  allowedRelationalOperators : loc;
  limit : option Z;
  errorHandler : ErrorHandler;
  allowedFilterFields : loc;
  allowedOrderFields : loc
}.

(** [m[k]] read through a reference: the [ok] of [_, ok := m[k]]. *)
Definition map_deref (st : State) (l : loc) : gset string :=
  default ∅ (maps st !! l).

Definition map_has (st : State) (l : loc) (k : string) : bool :=
  bool_decide (k ∈ map_deref st l).

(** ** validateSearchRequest *)

Section Validate.

Variable st : State.
Variable opts : config.

(** The loop over [g.Filters] of [validateGroup]. *)
Fixpoint validateFilters (fs : list Filter) : option error :=
  match fs with
  | [] => None
  | f :: fs' =>
      if negb (map_has st (allowedFilterFields opts) (Filter_Field f)) then
        Some (fmt_Errorf "field %q not allowed in filters"
                [ArgString (Filter_Field f)])
      else if negb (map_has st (allowedRelationalOperators opts) (Filter_Op f)) then
        Some (fmt_Errorf "relational operator %q not allowed for field %q"
                [ArgString (Filter_Op f); ArgString (Filter_Field f)])
      else validateFilters fs'
  end.

(** The closure [validateGroup] on a non-nil group; the inner [fix] is the
    loop over [g.Groups]. *)
Fixpoint validateGroup_at (g : FilterGroup) : option error :=
  if negb (map_has st (allowedLogicalOperators opts) (Group_Op g)) then
    Some (fmt_Errorf "logical operator %q not allowed" [ArgString (Group_Op g)])
  else
    match validateFilters (Group_Filters g) with
    | Some err => Some err
    | None =>
        (fix loop (gs : list FilterGroup) : option error :=
           match gs with
           | [] => None
           | sg :: gs' =>
               match validateGroup_at sg with
               | Some err => Some err
               | None => loop gs'
               end
           end) (Group_Groups g)
    end.

(** [validateGroup] with its nil check; only the root can be nil. *)
Definition validateGroup (g : option FilterGroup) : option error :=
  match g with
  | None => None
  | Some g => validateGroup_at g
  end.

(** The loop over [s.OrderBy]. *)
Fixpoint validateOrderBy (os : list OrderClause) : option error :=
  match os with
  | [] => None
  | o :: os' =>
      if negb (map_has st (allowedOrderFields opts) (Order_Field o)) then
        Some (fmt_Errorf "field %q not allowed in order by"
                [ArgString (Order_Field o)])
      else validateOrderBy os'
  end.

(** The [if opts.limit != nil] block. *)
Definition validateMaxLimit (s : SearchRequest) : option error :=
  match limit opts with
  | Some m =>
      match Limit s with
      | None => Some (errors_New "limit is mandatory")
      | Some l =>
          if l >? m then
            Some (fmt_Errorf "limit must be between 0 and %d" [ArgInt m])
          else None
      end
  | None => None
  end.

Definition validateSearchRequest (s : SearchRequest) : option error :=
  if match Limit s with Some l => l <? 0 | None => false end then
    Some (errors_New "limit must be null or >= 0")
  else
    match validateMaxLimit s with
    | Some err => Some err
    | None =>
        if match Offset s with Some o => o <? 0 | None => false end then
          Some (errors_New "offset must be null or >= 0")
        else
          match validateOrderBy (OrderBy s) with
          | Some err => Some err
          | None =>
              match validateGroup (Groups s) with
              | Some err => Some err
              | None => None
              end
          end
    end.

End Validate.

(** The loop over [g.Groups] of [validateGroup], as a function of its own. *)
Fixpoint validateGroups (st : State) (opts : config) (gs : list FilterGroup)
    : option error :=
  match gs with
  | [] => None
  | sg :: gs' =>
      match validateGroup_at st opts sg with
      | Some err => Some err
      | None => validateGroups st opts gs'
      end
  end.

Definition empty_request : SearchRequest :=
  {| Groups := None; OrderBy := []; Limit := None; Offset := None |}.

(** ** Rendering an error: [err.Error()]

    [fmt.Sprintf] for the two verbs the package uses: [%d] on an [int] and
    [%q] on a string.  [strconv.Quote], which [%q] calls, belongs to the Go
    library and is a parameter here. *)

Section Render.

Variable strconv_Quote : string → string.

Definition render_verb (verb : ascii) (a : fmtarg) : string :=
  match a with
  | ArgInt n => if Ascii.eqb verb "d"%char then pretty n else "%!" +:+ String verb ""
  | ArgString s =>
      if Ascii.eqb verb "q"%char then strconv_Quote s else "%!" +:+ String verb ""
  end.

Fixpoint Sprintf (format : string) (args : list fmtarg) : string :=
  match format with
  | EmptyString => ""
  | String "%"%char (String verb rest) =>
      match args with
      | a :: args' => render_verb verb a +:+ Sprintf rest args'
      | [] => "%!" +:+ String verb "(MISSING)" +:+ Sprintf rest []
      end
  | String ch rest => String ch (Sprintf rest args)
  end.

Definition Error (e : error) : string :=
  match e with
  | errors_New text => text
  | fmt_Errorf format args => Sprintf format args
  | json_error text => text
  end.

End Render.

(** ** Writing through a map reference

    The four map objects are created by the package's variable initialisers
    and no statement of the package assigns a map variable or a map field of
    [config] afterwards, so every reference the code holds is allocated; on
    an unallocated reference these do nothing. *)

Definition set_maps (st : State) (m : gmap loc (gset string)) : State :=
  {| globals := globals st; maps := m |}.

(** [clear(m)] *)
Definition map_clear (l : loc) (st : State) : State :=
  set_maps st (alter (λ _, ∅) l (maps st)).

(** [m[k] = struct{}{}] *)
Definition map_store (l : loc) (k : string) (st : State) : State :=
  set_maps st (alter (λ m, {[k]} ∪ m) l (maps st)).

(** [for _, v := range ks { m[v] = struct{}{} }] *)
Definition map_store_all (l : loc) (ks : list string) (st : State) : State :=
  fold_left (λ st k, map_store l k st) ks st.

(** ** The package variables and their setters *)

Definition loc_logicalOperators : loc := 0%nat.
Definition loc_relationalOperators : loc := 1%nat.
Definition loc_filterFields : loc := 2%nat.
Definition loc_orderFields : loc := 3%nat.

(** The state after package initialisation: [defaultLogicalOperators] and
    [defaultRelationalOperators] are initialised from [logicalOperators] and
    [relationalOperators], so they refer to those two map objects. *)
Definition initial_state : State :=
  {| globals :=
       {| defaultQueryParam := "q";
          defaultSearchMandatory := true;
          defaultLogicalOperators := loc_logicalOperators;
          defaultRelationalOperators := loc_relationalOperators;
          defaultLimit := None;
          defaultErrorHandler := badRequestHandler;
          defaultFilterFields := loc_filterFields;
          defaultOrderFields := loc_orderFields |};
     maps :=
       <[loc_logicalOperators := list_to_set logicalOperators_keys]>
       (<[loc_relationalOperators := list_to_set relationalOperators_keys]>
       (<[loc_filterFields := ∅]>
       (<[loc_orderFields := ∅]> ∅))) |}.

Definition set_globals (st : State) (g : Globals) : State :=
  {| globals := g; maps := maps st |}.

Definition SetDefaultQueryParam (queryParam : string) (st : State) : State :=
  let g := globals st in
  set_globals st
    {| defaultQueryParam := queryParam;
       defaultSearchMandatory := defaultSearchMandatory g;
       defaultLogicalOperators := defaultLogicalOperators g;
       defaultRelationalOperators := defaultRelationalOperators g;
       defaultLimit := defaultLimit g;
       defaultErrorHandler := defaultErrorHandler g;
       defaultFilterFields := defaultFilterFields g;
       defaultOrderFields := defaultOrderFields g |}.

Definition SetDefaultSearchMandatory (isMandatory : bool) (st : State) : State :=
  let g := globals st in
  set_globals st
    {| defaultQueryParam := defaultQueryParam g;
       defaultSearchMandatory := isMandatory;
       defaultLogicalOperators := defaultLogicalOperators g;
       defaultRelationalOperators := defaultRelationalOperators g;
       defaultLimit := defaultLimit g;
       defaultErrorHandler := defaultErrorHandler g;
       defaultFilterFields := defaultFilterFields g;
       defaultOrderFields := defaultOrderFields g |}.

Definition SetDefaultLogicalOperators
    (operators : list LogicalOperator) (st : State) : State :=
  let l := defaultLogicalOperators (globals st) in
  map_store_all l operators (map_clear l st).

Definition SetDefaultRelationalOperators
    (operators : list RelationalOperator) (st : State) : State :=
  let l := defaultRelationalOperators (globals st) in
  map_store_all l operators (map_clear l st).

Definition SetDefaultLimit (n : Z) (st : State) : State :=
  let g := globals st in
  set_globals st
    {| defaultQueryParam := defaultQueryParam g;
       defaultSearchMandatory := defaultSearchMandatory g;
       defaultLogicalOperators := defaultLogicalOperators g;
       defaultRelationalOperators := defaultRelationalOperators g;
       defaultLimit := if n <? 0 then None else Some n;
       defaultErrorHandler := defaultErrorHandler g;
       defaultFilterFields := defaultFilterFields g;
       defaultOrderFields := defaultOrderFields g |}.

Definition SetDefaultErrorHandler (handler : ErrorHandler) (st : State) : State :=
  let g := globals st in
  set_globals st
    {| defaultQueryParam := defaultQueryParam g;
       defaultSearchMandatory := defaultSearchMandatory g;
       defaultLogicalOperators := defaultLogicalOperators g;
       defaultRelationalOperators := defaultRelationalOperators g;
       defaultLimit := defaultLimit g;
       defaultErrorHandler := handler;
       defaultFilterFields := defaultFilterFields g;
       defaultOrderFields := defaultOrderFields g |}.

Definition SetDefaultFilterFields (fields : list string) (st : State) : State :=
  let l := defaultFilterFields (globals st) in
  map_store_all l fields (map_clear l st).

Definition SetDefaultOrderFields (fields : list string) (st : State) : State :=
  let l := defaultOrderFields (globals st) in
  map_store_all l fields (map_clear l st).

(** ** Options and NewSearchHandler

    An [Option] is a function on a pointer to a [config]: it may assign fields of the [config]
    it is given and write through the map references the [config] holds. *)

Definition Option := config → State → config * State.

Definition WithQueryParam (q : string) : Option := λ c st,
  ({| queryParam := q;
      isSearchMandatory := isSearchMandatory c;
      allowedLogicalOperators := allowedLogicalOperators c;
      allowedRelationalOperators := allowedRelationalOperators c;
      limit := limit c;
      errorHandler := errorHandler c;
      allowedFilterFields := allowedFilterFields c;
      allowedOrderFields := allowedOrderFields c |}, st).

Definition WithSearchMandatory (isMandatory : bool) : Option := λ c st,
  ({| queryParam := queryParam c;
      isSearchMandatory := isMandatory;
      allowedLogicalOperators := allowedLogicalOperators c;
      allowedRelationalOperators := allowedRelationalOperators c;
      limit := limit c;
      errorHandler := errorHandler c;
      allowedFilterFields := allowedFilterFields c;
      allowedOrderFields := allowedOrderFields c |}, st).

Definition WithLogicalOperators (operators : list LogicalOperator) : Option :=
  λ c st,
  (c, map_store_all (allowedLogicalOperators c) operators
        (map_clear (allowedLogicalOperators c) st)).

Definition WithRelationalOperators (operators : list RelationalOperator) : Option :=
  λ c st,
  (c, map_store_all (allowedRelationalOperators c) operators
        (map_clear (allowedRelationalOperators c) st)).

Definition WithLimit (n : Z) : Option := λ c st,
  ({| queryParam := queryParam c;
      isSearchMandatory := isSearchMandatory c;
      allowedLogicalOperators := allowedLogicalOperators c;
      allowedRelationalOperators := allowedRelationalOperators c;
      limit := if n <? 0 then None else Some n;
      errorHandler := errorHandler c;
      allowedFilterFields := allowedFilterFields c;
      allowedOrderFields := allowedOrderFields c |}, st).

Definition WithErrorHandler (handler : ErrorHandler) : Option := λ c st,
  ({| queryParam := queryParam c;
      isSearchMandatory := isSearchMandatory c;
      allowedLogicalOperators := allowedLogicalOperators c;
      allowedRelationalOperators := allowedRelationalOperators c;
      limit := limit c;
      errorHandler := handler;
      allowedFilterFields := allowedFilterFields c;
      allowedOrderFields := allowedOrderFields c |}, st).

Definition WithFilterFields (fields : list string) : Option := λ c st,
  (c, map_store_all (allowedFilterFields c) fields
        (map_clear (allowedFilterFields c) st)).

Definition WithExtraFilterFields (fields : list string) : Option := λ c st,
  (c, map_store_all (allowedFilterFields c) fields st).

Definition WithOrderFields (fields : list string) : Option := λ c st,
  (c, map_store_all (allowedOrderFields c) fields
        (map_clear (allowedOrderFields c) st)).

Definition WithExtraOrderFields (fields : list string) : Option := λ c st,
  (c, map_store_all (allowedOrderFields c) fields st).

(** The [config] literal of [NewSearchHandler]: every field is a copy of a
    package variable, and a copy of a map variable is the same reference. *)
Definition config_of_defaults (g : Globals) : config :=
  {| queryParam := defaultQueryParam g;
     isSearchMandatory := defaultSearchMandatory g;
     allowedLogicalOperators := defaultLogicalOperators g;
     allowedRelationalOperators := defaultRelationalOperators g;
     limit := defaultLimit g;
     errorHandler := defaultErrorHandler g;
     allowedFilterFields := defaultFilterFields g;
     allowedOrderFields := defaultOrderFields g |}.

(** [for _, opt := range opts { opt(c) }] *)
Definition apply_options (opts : list Option) (c : config) (st : State)
    : config * State :=
  fold_left (λ cs opt, opt cs.1 cs.2) opts (c, st).

(** The construction part of [NewSearchHandler]: the [config] the returned
    middleware closes over, and the state the options leave behind. *)
Definition NewSearchHandler (opts : list Option) (st : State) : config * State :=
  apply_options opts (config_of_defaults (globals st)) st.

(** The options the package offers. *)
Inductive package_option : Option → Prop :=
  | po_WithQueryParam q : package_option (WithQueryParam q)
  | po_WithSearchMandatory b : package_option (WithSearchMandatory b)
  | po_WithLogicalOperators ops : package_option (WithLogicalOperators ops)
  | po_WithRelationalOperators ops : package_option (WithRelationalOperators ops)
  | po_WithLimit n : package_option (WithLimit n)
  | po_WithErrorHandler h : package_option (WithErrorHandler h)
  | po_WithFilterFields fields : package_option (WithFilterFields fields)
  | po_WithExtraFilterFields fields : package_option (WithExtraFilterFields fields)
  | po_WithOrderFields fields : package_option (WithOrderFields fields)
  | po_WithExtraOrderFields fields : package_option (WithExtraOrderFields fields).

(** The four map references of a [config]. *)
Definition config_maps (c : config) : list loc :=
  [allowedLogicalOperators c; allowedRelationalOperators c;
   allowedFilterFields c; allowedOrderFields c].

(** ** Requests and their context *)

Inductive contextKey :=
  | searchKey
  | otherKey (name : string).

Inductive contextValue :=
  | SearchRequestPtr (s : SearchRequest)
  | otherValue (v : string).

Global Instance contextKey_eq_dec : EqDecision contextKey.
Proof. solve_decision. Defined.

(** A request as the handler sees it: the parsed query ([r.URL.Query()], a
    [url.Values]) and the chain of values of [r.Context()], newest first. *)
Record Request := mkRequest {
  URL_Query : gmap string (list string);
  Context : list (contextKey * contextValue)
}.

(** [url.Values.Get]: the first value of the key, or the empty string. *)
Definition Values_Get (v : gmap string (list string)) (key : string) : string :=
  match v !! key with
  | Some (x :: _) => x
  | Some [] | None => ""
  end.

Definition context_WithValue (ctx : list (contextKey * contextValue))
    (k : contextKey) (v : contextValue) : list (contextKey * contextValue) :=
  (k, v) :: ctx.

Fixpoint context_Value (ctx : list (contextKey * contextValue)) (k : contextKey)
    : option contextValue :=
  match ctx with
  | [] => None
  | (k', v) :: ctx' => if decide (k' = k) then Some v else context_Value ctx' k
  end.

Definition WithContext (r : Request) (ctx : list (contextKey * contextValue))
    : Request :=
  {| URL_Query := URL_Query r; Context := ctx |}.

Definition GetSearchRequest (r : Request) : option SearchRequest :=
  match context_Value (Context r) searchKey with
  | None => None
  | Some (SearchRequestPtr s) => Some s
  | Some (otherValue _) => None
  end.

(** ** The middleware returned by NewSearchHandler *)

Inductive Event :=
  | Decode (input : string)
  | Validate (search : SearchRequest)
  | CallErrorHandler (h : ErrorHandler) (r : Request) (err : error)
  | ServeNext (r : Request).

Definition missing_parameter (c : config) : error :=
  fmt_Errorf "missing %q query parameter" [ArgString (queryParam c)].

Section Middleware.

(** [json.Decoder.Decode] with [DisallowUnknownFields] on the parameter
    value: the decoded request or the decoder's error. *)
Variable json_Decode : string → SearchRequest + error.

(** The body of the [http.HandlerFunc], for the [config] closed over and
    the state at the time of the request; the result lists the calls made,
    in order. *)
Definition ServeHTTP (c : config) (st : State) (r : Request) : list Event :=
  let s := Values_Get (URL_Query r) (queryParam c) in
  if String.eqb s "" then
    if negb (isSearchMandatory c) then [ServeNext r]
    else [CallErrorHandler (errorHandler c) r (missing_parameter c)]
  else
    Decode s ::
    match json_Decode s with
    | inr err => [CallErrorHandler (errorHandler c) r err]
    | inl search =>
        Validate search ::
        match validateSearchRequest st c search with
        | Some err => [CallErrorHandler (errorHandler c) r err]
        | None =>
            let ctx :=
              context_WithValue (Context r) searchKey (SearchRequestPtr search) in
            [ServeNext (WithContext r ctx)]
        end
    end.

End Middleware.

(** The calls of a trace that reach the two collaborators a caller sees. *)
Definition is_handler_call (ev : Event) : bool :=
  match ev with
  | CallErrorHandler _ _ _ | ServeNext _ => true
  | Decode _ | Validate _ => false
  end.

Definition handler_calls (tr : list Event) : list Event :=
  List.filter is_handler_call tr.

Definition is_decode_or_validate (ev : Event) : bool :=
  negb (is_handler_call ev).

(** ** What the specification says, in its own words *)

Module Spec.

(** Every group operator, filter field and filter operator of a group tree
    is in the corresponding allow-set. *)
#[warnings="-register-all"]
Inductive group_allowed (st : State) (c : config) : FilterGroup → Prop :=
  | group_allowed_intro op fs gs :
      op ∈ map_deref st (allowedLogicalOperators c) →
      Forall (λ f, Filter_Field f ∈ map_deref st (allowedFilterFields c)
                   ∧ Filter_Op f ∈ map_deref st (allowedRelationalOperators c)) fs →
      Forall (group_allowed st c) gs →
      group_allowed st c (mkFilterGroup op fs gs).

(** The invariants of an accepted specification. *)
Record accepted (st : State) (c : config) (s : SearchRequest) : Prop := {
  limit_nonneg : ∀ l, Limit s = Some l → 0 ≤ l;
  limit_ceiling : ∀ m, limit c = Some m → ∃ l, Limit s = Some l ∧ l ≤ m;
  offset_nonneg : ∀ o, Offset s = Some o → 0 ≤ o;
  order_allowed :
    Forall (λ o, Order_Field o ∈ map_deref st (allowedOrderFields c)) (OrderBy s);
  groups_allowed : ∀ g, Groups s = Some g → group_allowed st c g
}.

(** The checks of one filter, field first, then operator. *)
Definition filter_checks (st : State) (c : config) (f : Filter)
    : list (option error) :=
  [ if map_has st (allowedFilterFields c) (Filter_Field f) then None
    else Some (fmt_Errorf "field %q not allowed in filters"
                 [ArgString (Filter_Field f)]);
    if map_has st (allowedRelationalOperators c) (Filter_Op f) then None
    else Some (fmt_Errorf "relational operator %q not allowed for field %q"
                 [ArgString (Filter_Op f); ArgString (Filter_Field f)]) ].

(** The checks of a group tree, depth-first pre-order in declaration order:
    the group's operator, then its filters, then its subgroups. *)
Fixpoint group_checks (st : State) (c : config) (g : FilterGroup)
    : list (option error) :=
  (if map_has st (allowedLogicalOperators c) (Group_Op g) then None
   else Some (fmt_Errorf "logical operator %q not allowed"
                [ArgString (Group_Op g)]))
  :: flat_map (filter_checks st c) (Group_Filters g)
  ++ (fix subgroups (gs : list FilterGroup) : list (option error) :=
        match gs with
        | [] => []
        | sg :: gs' => group_checks st c sg ++ subgroups gs'
        end) (Group_Groups g).

(** The checks of a whole specification in the fixed order. *)
Definition request_checks (st : State) (c : config) (s : SearchRequest)
    : list (option error) :=
  [ match Limit s with
    | Some l => if l <? 0 then Some (errors_New "limit must be null or >= 0") else None
    | None => None
    end ]
  ++ match limit c with
     | Some m =>
         [ match Limit s with
           | None => Some (errors_New "limit is mandatory")
           | Some _ => None
           end;
           match Limit s with
           | Some l =>
               if l >? m
               then Some (fmt_Errorf "limit must be between 0 and %d" [ArgInt m])
               else None
           | None => None
           end ]
     | None => []
     end
  ++ [ match Offset s with
       | Some o => if o <? 0 then Some (errors_New "offset must be null or >= 0") else None
       | None => None
       end ]
  ++ map (λ o, if map_has st (allowedOrderFields c) (Order_Field o) then None
               else Some (fmt_Errorf "field %q not allowed in order by"
                            [ArgString (Order_Field o)])) (OrderBy s)
  ++ match Groups s with
     | Some g => group_checks st c g
     | None => []
     end.

(** Fail-fast: the first violation of a list of checks. *)
Fixpoint first_violation (checks : list (option error)) : option error :=
  match checks with
  | [] => None
  | Some err :: _ => Some err
  | None :: rest => first_violation rest
  end.

(** The limit checks (1 and 2) and the offset check (3) pass. *)
Definition limit_ok (c : config) (s : SearchRequest) : Prop :=
  (∀ l, Limit s = Some l → 0 ≤ l)
  ∧ (∀ m, limit c = Some m → ∃ l, Limit s = Some l ∧ l ≤ m).

Definition offset_ok (s : SearchRequest) : Prop :=
  ∀ o, Offset s = Some o → 0 ≤ o.

(** [group_in g root]: [g] is [root] or a group nested in it, at any depth. *)
Inductive group_in (g : FilterGroup) : FilterGroup → Prop :=
  | group_in_root : group_in g g
  | group_in_nested sg root :
      sg ∈ Group_Groups root → group_in g sg → group_in g root.

(** [filter_in f root]: [f] is a filter of some group of the tree. *)
Definition filter_in (f : Filter) (root : FilterGroup) : Prop :=
  ∃ g, group_in g root ∧ f ∈ Group_Filters g.

(** The eight validation failures of the specification, each with what it
    carries. *)
Inductive ValidationError :=
  | InvalidLimit
  | LimitMandatory
  | LimitExceeded (ceiling : Z)
  | InvalidOffset
  | OrderFieldNotAllowed (field : string)
  | LogicalOperatorNotAllowed (op : LogicalOperator)
  | FilterFieldNotAllowed (field : string)
  | RelationalOperatorNotAllowed (op : RelationalOperator) (field : string).

(** When a specification exhibits a failure under a policy. *)
Inductive exhibits (st : State) (c : config) (s : SearchRequest)
    : ValidationError → Prop :=
  | exhibits_InvalidLimit l :
      Limit s = Some l → l < 0 → exhibits st c s InvalidLimit
  | exhibits_LimitMandatory m :
      limit c = Some m → Limit s = None → exhibits st c s LimitMandatory
  | exhibits_LimitExceeded m l :
      limit c = Some m → Limit s = Some l → m < l →
      exhibits st c s (LimitExceeded m)
  | exhibits_InvalidOffset o :
      Offset s = Some o → o < 0 → exhibits st c s InvalidOffset
  | exhibits_OrderFieldNotAllowed o :
      o ∈ OrderBy s →
      Order_Field o ∉ map_deref st (allowedOrderFields c) →
      exhibits st c s (OrderFieldNotAllowed (Order_Field o))
  | exhibits_LogicalOperatorNotAllowed root g :
      Groups s = Some root → group_in g root →
      Group_Op g ∉ map_deref st (allowedLogicalOperators c) →
      exhibits st c s (LogicalOperatorNotAllowed (Group_Op g))
  | exhibits_FilterFieldNotAllowed root f :
      Groups s = Some root → filter_in f root →
      Filter_Field f ∉ map_deref st (allowedFilterFields c) →
      exhibits st c s (FilterFieldNotAllowed (Filter_Field f))
  | exhibits_RelationalOperatorNotAllowed root f :
      Groups s = Some root → filter_in f root →
      Filter_Op f ∉ map_deref st (allowedRelationalOperators c) →
      exhibits st c s (RelationalOperatorNotAllowed (Filter_Op f) (Filter_Field f)).

(** The text a failure is reported with; [quote] is Go's quoting of a
    string. *)
Definition message (quote : string → string) (v : ValidationError) : string :=
  match v with
  | InvalidLimit => "limit must be null or >= 0"
  | LimitMandatory => "limit is mandatory"
  | LimitExceeded ceiling => "limit must be between 0 and " +:+ pretty ceiling
  | InvalidOffset => "offset must be null or >= 0"
  | OrderFieldNotAllowed field =>
      "field " +:+ quote field +:+ " not allowed in order by"
  | LogicalOperatorNotAllowed op =>
      "logical operator " +:+ quote op +:+ " not allowed"
  | FilterFieldNotAllowed field =>
      "field " +:+ quote field +:+ " not allowed in filters"
  | RelationalOperatorNotAllowed op field =>
      "relational operator " +:+ quote op +:+ " not allowed for field "
      +:+ quote field
  end.

(** What a failure carries besides its fixed text. *)
Definition payload (v : ValidationError) : list fmtarg :=
  match v with
  | InvalidLimit | LimitMandatory | InvalidOffset => []
  | LimitExceeded ceiling => [ArgInt ceiling]
  | OrderFieldNotAllowed field | FilterFieldNotAllowed field => [ArgString field]
  | LogicalOperatorNotAllowed op => [ArgString op]
  | RelationalOperatorNotAllowed op field => [ArgString op; ArgString field]
  end.

End Spec.

(** ** Auxiliary notions for stating properties of the package *)

(** A specification with every filter value and every order direction
    blanked: what is left is what [validateSearchRequest] can look at. *)
Definition forget_filter_value (f : Filter) : Filter :=
  {| Filter_Field := Filter_Field f; Filter_Op := Filter_Op f; Filter_Value := "" |}.

Fixpoint forget_group_values (g : FilterGroup) : FilterGroup :=
  match g with
  | mkFilterGroup op fs gs =>
      mkFilterGroup op (map forget_filter_value fs) (map forget_group_values gs)
  end.

Definition forget_direction (o : OrderClause) : OrderClause :=
  {| Order_Field := Order_Field o; Order_Direction := "" |}.

Definition forget_values (s : SearchRequest) : SearchRequest :=
  {| Groups := option_map forget_group_values (Groups s);
     OrderBy := map forget_direction (OrderBy s);
     Limit := Limit s;
     Offset := Offset s |}.

(** An option that leaves the [limit] field of every [config] alone. *)
Definition keeps_limit (opt : Option) : Prop :=
  ∀ c st, limit (opt c st).1 = limit c.

(** The canonical symbols [RelationalOperator.Symbol] can return. *)
Definition relational_symbols : list string :=
  ["="; "<>"; ">"; ">="; "<"; "<="; "like"; "ilike"; "in"].

(** The set-valued options and setters, each with the map reference it
    writes through: the "replace" options, the "extend" options and the
    setters of the defaults. *)
Definition replace_options : list ((list string → Option) * (config → loc)) :=
  [(WithLogicalOperators, allowedLogicalOperators);
   (WithRelationalOperators, allowedRelationalOperators);
   (WithFilterFields, allowedFilterFields);
   (WithOrderFields, allowedOrderFields)].

Definition extend_options : list ((list string → Option) * (config → loc)) :=
  [(WithExtraFilterFields, allowedFilterFields);
   (WithExtraOrderFields, allowedOrderFields)].

Definition replace_setters
    : list ((list string → State → State) * (Globals → loc)) :=
  [(SetDefaultLogicalOperators, defaultLogicalOperators);
   (SetDefaultRelationalOperators, defaultRelationalOperators);
   (SetDefaultFilterFields, defaultFilterFields);
   (SetDefaultOrderFields, defaultOrderFields)].

(** Plugging a handler in as the [next] of a middleware: every call of the
    next handler in a trace is replaced by the calls that handler makes. *)
Definition bind_next (tr : list Event) (next : Request → list Event)
    : list Event :=
  flat_map (λ ev, match ev with
                  | ServeNext r => next r
                  | _ => [ev]
                  end) tr.

(** ** Values used in the examples *)

(** A decoder that knows two payloads. *)
Definition example_Decode (input : string) : SearchRequest + error :=
  if String.eqb input "{}" then inl empty_request
  else if String.eqb input "{limit:20}" then
    inl {| Groups := None; OrderBy := []; Limit := Some 20; Offset := None |}
  else inr (json_error "invalid character").

Definition example_request (value : string) : Request :=
  {| URL_Query := {["q" := [value]]}; Context := [] |}.

(** A policy used in the examples: filters on [id], ordering on [id], a
    ceiling of 10, all operators of the package. *)
Definition example_handler : config * State :=
  NewSearchHandler
    [WithFilterFields ["id"]; WithOrderFields ["id"]; WithLimit 10]
    initial_state.

(** * Properties *)

(** ** Induction on group trees *)

Lemma FilterGroup_tree_ind (P : FilterGroup → Prop) :
  (∀ op fs gs, Forall P gs → P (mkFilterGroup op fs gs)) →
  ∀ g, P g.
Proof.
  intros step. fix IH 1. intros [op fs gs]. apply step.
  induction gs as [|sg gs IHgs]; constructor; [apply IH | exact IHgs].
Qed.

Lemma map_has_true st l k : map_has st l k = true ↔ k ∈ map_deref st l.
Proof. unfold map_has. apply bool_decide_eq_true. Qed.

Lemma map_has_false st l k : map_has st l k = false ↔ k ∉ map_deref st l.
Proof. unfold map_has. apply bool_decide_eq_false. Qed.

Lemma validateGroup_at_unfold st c op fs gs :
  validateGroup_at st c (mkFilterGroup op fs gs) =
  if negb (map_has st (allowedLogicalOperators c) op) then
    Some (fmt_Errorf "logical operator %q not allowed" [ArgString op])
  else match validateFilters st c fs with
       | Some err => Some err
       | None => validateGroups st c gs
       end.
Proof.
  simpl. destruct (negb _); [reflexivity|].
  destruct (validateFilters st c fs); [reflexivity|].
  induction gs as [|sg gs IH]; [reflexivity|].
  simpl. destruct (validateGroup_at st c sg); [reflexivity | exact IH].
Qed.

(** ** Operator symbols *)

(** C9: every token outside the nine relational operators maps to the
    equality symbol, and every token outside the two logical operators maps
    to the conjunction symbol; both mappings are total functions. *)
Theorem Symbol_default_for_unrecognized (t : string) :
  (t ∉ relationalOperators_keys → RelationalOperator_Symbol t = "=")
  ∧ (t ∉ logicalOperators_keys → LogicalOperator_Symbol t = "and").
Proof.
  split; intros Hout.
  - unfold RelationalOperator_Symbol.
    repeat match goal with
    | |- context [String.eqb t ?k] =>
        destruct (String.eqb_spec t k) as [->|_];
        [exfalso; apply Hout; unfold relationalOperators_keys;
         repeat (first [apply list_elem_of_here | apply list_elem_of_further]) |]
    end.
    reflexivity.
  - unfold LogicalOperator_Symbol.
    destruct (String.eqb_spec t OrOperator) as [->|_]; [|reflexivity].
    exfalso. apply Hout. unfold logicalOperators_keys.
    apply list_elem_of_further, list_elem_of_here.
Qed.

Lemma Symbol_default_for_unrecognized_witness :
  RelationalOperator_Symbol "between" = "="
  ∧ LogicalOperator_Symbol "xor" = "and".
Proof.
  destruct (Symbol_default_for_unrecognized "between") as [Hrel _].
  destruct (Symbol_default_for_unrecognized "xor") as [_ Hlog].
  split; [apply Hrel | apply Hlog];
    apply (bool_decide_unpack _); vm_compute; exact I.
Defined.

(** ** The validator accepts exactly the specifications that satisfy the
       invariants *)

Section ValidatorFacts.

Variable st : State.
Variable c : config.

Lemma validateFilters_nil_iff fs :
  validateFilters st c fs = None ↔
  Forall (λ f, Filter_Field f ∈ map_deref st (allowedFilterFields c)
               ∧ Filter_Op f ∈ map_deref st (allowedRelationalOperators c)) fs.
Proof.
  induction fs as [|f fs IH]; simpl.
  - split; [constructor | reflexivity].
  - destruct (map_has st (allowedFilterFields c) (Filter_Field f)) eqn:Hf; simpl.
    + destruct (map_has st (allowedRelationalOperators c) (Filter_Op f)) eqn:Ho;
        simpl.
      * rewrite IH. apply map_has_true in Hf, Ho. split.
        -- intros Hfs. constructor; [split; assumption | exact Hfs].
        -- intros Hall. inversion Hall; assumption.
      * apply map_has_false in Ho. split; [discriminate|].
        intros Hall. inversion Hall as [|? ? [_ Hop] _]; subst. contradiction.
    + apply map_has_false in Hf. split; [discriminate|].
      intros Hall. inversion Hall as [|? ? [Hfield _] _]; subst. contradiction.
Qed.

Lemma validateOrderBy_nil_iff os :
  validateOrderBy st c os = None ↔
  Forall (λ o, Order_Field o ∈ map_deref st (allowedOrderFields c)) os.
Proof.
  induction os as [|o os IH]; simpl.
  - split; [constructor | reflexivity].
  - destruct (map_has st (allowedOrderFields c) (Order_Field o)) eqn:Ho; simpl.
    + rewrite IH. apply map_has_true in Ho. split.
      * intros Hos. constructor; assumption.
      * intros Hall. inversion Hall; assumption.
    + apply map_has_false in Ho. split; [discriminate|].
      intros Hall. inversion Hall; subst. contradiction.
Qed.

Lemma validateGroups_nil_iff gs :
  validateGroups st c gs = None ↔
  Forall (λ g, validateGroup_at st c g = None) gs.
Proof.
  induction gs as [|g gs IH]; simpl.
  - split; [constructor | reflexivity].
  - destruct (validateGroup_at st c g) eqn:Hg.
    + split; [discriminate|]. intros Hall. inversion Hall; subst. congruence.
    + rewrite IH. split.
      * intros Hgs. constructor; assumption.
      * intros Hall. inversion Hall; assumption.
Qed.

Lemma validateGroup_at_nil_iff g :
  validateGroup_at st c g = None ↔ Spec.group_allowed st c g.
Proof.
  induction g as [op fs gs IH] using FilterGroup_tree_ind.
  rewrite validateGroup_at_unfold.
  destruct (map_has st (allowedLogicalOperators c) op) eqn:Hop; simpl.
  - apply map_has_true in Hop.
    destruct (validateFilters st c fs) eqn:Hfs.
    + split; [discriminate|]. intros Hok. inversion Hok as [? ? ? _ Hall _]; subst.
      apply validateFilters_nil_iff in Hall. congruence.
    + apply validateFilters_nil_iff in Hfs. rewrite validateGroups_nil_iff. split.
      * intros Hgs. constructor; [assumption | assumption |].
        rewrite Forall_forall in IH, Hgs. apply Forall_forall.
        intros sg Hin. apply IH; [exact Hin | apply Hgs; exact Hin].
      * intros Hok. inversion Hok as [? ? ? _ _ Hsub]; subst.
        rewrite Forall_forall in IH, Hsub. apply Forall_forall.
        intros sg Hin. apply IH; [exact Hin | apply Hsub; exact Hin].
  - apply map_has_false in Hop. split; [discriminate|].
    intros Hok. inversion Hok; subst. contradiction.
Qed.

(** C1: the validator returns nil exactly when the limit, if present, is
    non-negative; a configured ceiling implies a present limit below or at
    it; the offset, if present, is non-negative; every order field is
    allowed; and every group operator, filter field and filter operator of
    the root group tree, if there is one, is allowed. *)
Theorem validateSearchRequest_nil_iff_accepted (s : SearchRequest) :
  validateSearchRequest st c s = None ↔ Spec.accepted st c s.
Proof.
  unfold validateSearchRequest, validateMaxLimit. split.
  - intros Hv.
    assert (Hlim : ∀ l, Limit s = Some l → 0 ≤ l).
    { intros l Hl. rewrite Hl in Hv.
      destruct (Z.ltb_spec l 0); [discriminate | assumption]. }
    assert (Hlim0 : match Limit s with Some l => l <? 0 | None => false end = false).
    { destruct (Limit s) as [l|]; [|reflexivity].
      apply Z.ltb_ge. apply Hlim. reflexivity. }
    rewrite Hlim0 in Hv.
    assert (Hceil : ∀ m, limit c = Some m → ∃ l, Limit s = Some l ∧ l ≤ m).
    { intros m Hm. rewrite Hm in Hv.
      destruct (Limit s) as [l|]; [|discriminate].
      exists l. split; [reflexivity|].
      destruct (Z.gtb_spec l m); [discriminate | assumption]. }
    destruct (match limit c with Some _ => _ | None => _ end); [discriminate|].
    assert (Hoff : ∀ o, Offset s = Some o → 0 ≤ o).
    { intros o Ho. rewrite Ho in Hv.
      destruct (Z.ltb_spec o 0); [discriminate | assumption]. }
    assert (Hoff0 : match Offset s with Some o => o <? 0 | None => false end = false).
    { destruct (Offset s) as [o|]; [|reflexivity].
      apply Z.ltb_ge. apply Hoff. reflexivity. }
    rewrite Hoff0 in Hv.
    destruct (validateOrderBy st c (OrderBy s)) eqn:Hob; [discriminate|].
    destruct (validateGroup st c (Groups s)) eqn:Hg; [discriminate|].
    split; [exact Hlim | exact Hceil | exact Hoff | |].
    + apply validateOrderBy_nil_iff. exact Hob.
    + intros g Heq. apply validateGroup_at_nil_iff.
      rewrite Heq in Hg. exact Hg.
  - intros [Hl Hm Ho Hob Hg].
    assert (Hl' : match Limit s with Some l => l <? 0 | None => false end = false).
    { destruct (Limit s) as [l|]; [|reflexivity].
      apply Z.ltb_ge. apply Hl. reflexivity. }
    rewrite Hl'.
    assert (Hm' : match limit c with
                  | Some m =>
                      match Limit s with
                      | None => Some (errors_New "limit is mandatory")
                      | Some l =>
                          if l >? m
                          then Some (fmt_Errorf "limit must be between 0 and %d"
                                       [ArgInt m])
                          else None
                      end
                  | None => None
                  end = None).
    { destruct (limit c) as [m|]; [|reflexivity].
      destruct (Hm m eq_refl) as (l & -> & Hle).
      destruct (Z.gtb_spec l m); [lia | reflexivity]. }
    rewrite Hm'.
    assert (Ho' : match Offset s with Some o => o <? 0 | None => false end = false).
    { destruct (Offset s) as [o|]; [|reflexivity].
      apply Z.ltb_ge. apply Ho. reflexivity. }
    rewrite Ho'.
    apply validateOrderBy_nil_iff in Hob. rewrite Hob.
    destruct (Groups s) as [g|]; simpl; [|reflexivity].
    specialize (Hg g eq_refl). apply validateGroup_at_nil_iff in Hg.
    rewrite Hg. reflexivity.
Qed.

End ValidatorFacts.

(** ** The empty specification *)

(** C2, as stated, fails: a handler built with [WithLimit 10] rejects the
    specification that has no root group, no order clause, no limit and no
    offset, with "limit is mandatory". *)
Lemma empty_request_rejected_when_limit_configured :
  ¬ (∀ (st : State) (c : config), validateSearchRequest st c empty_request = None).
Proof.
  intros Hall.
  specialize (Hall initial_state (NewSearchHandler [WithLimit 10] initial_state).1).
  vm_compute in Hall. discriminate Hall.
Qed.

(** C2, amended: against every policy that sets no limit ceiling, whatever
    its allow-sets and its mandatory flag, the specification with no root
    group, no order clause, no limit and no offset validates. *)
Theorem empty_request_accepted_without_limit (st : State) (c : config) :
  limit c = None → validateSearchRequest st c empty_request = None.
Proof.
  intros Hnone. unfold validateSearchRequest, validateMaxLimit.
  rewrite Hnone. reflexivity.
Qed.

Lemma empty_request_accepted_without_limit_witness :
  validateSearchRequest initial_state
    (NewSearchHandler [WithSearchMandatory false] initial_state).1
    empty_request = None.
Proof.
  apply empty_request_accepted_without_limit. reflexivity.
Defined.

(** ** Check order *)

Lemma first_violation_app (xs ys : list (option error)) :
  Spec.first_violation (xs ++ ys) =
  match Spec.first_violation xs with
  | Some err => Some err
  | None => Spec.first_violation ys
  end.
Proof.
  induction xs as [|[e|] xs IH]; simpl; [reflexivity | reflexivity | exact IH].
Qed.

Section CheckOrder.

Variable st : State.
Variable c : config.

Lemma validateFilters_first_violation fs :
  validateFilters st c fs =
  Spec.first_violation (flat_map (Spec.filter_checks st c) fs).
Proof.
  induction fs as [|f fs IH]; simpl; [reflexivity|].
  destruct (map_has st (allowedFilterFields c) (Filter_Field f)); simpl;
    [|reflexivity].
  destruct (map_has st (allowedRelationalOperators c) (Filter_Op f)); simpl;
    [exact IH | reflexivity].
Qed.

Lemma group_checks_unfold op fs gs :
  Spec.group_checks st c (mkFilterGroup op fs gs) =
  (if map_has st (allowedLogicalOperators c) op then None
   else Some (fmt_Errorf "logical operator %q not allowed" [ArgString op]))
  :: flat_map (Spec.filter_checks st c) fs
  ++ flat_map (Spec.group_checks st c) gs.
Proof.
  reflexivity.
Qed.

Lemma validateGroup_at_first_violation g :
  validateGroup_at st c g = Spec.first_violation (Spec.group_checks st c g).
Proof.
  induction g as [op fs gs IH] using FilterGroup_tree_ind.
  rewrite validateGroup_at_unfold, group_checks_unfold.
  destruct (map_has st (allowedLogicalOperators c) op); simpl; [|reflexivity].
  rewrite first_violation_app, <- validateFilters_first_violation.
  destruct (validateFilters st c fs); [reflexivity|].
  induction IH as [|sg gs Hsg _ IHgs]; simpl; [reflexivity|].
  rewrite first_violation_app, <- Hsg.
  destruct (validateGroup_at st c sg); [reflexivity | exact IHgs].
Qed.

Lemma validateOrderBy_first_violation os :
  validateOrderBy st c os =
  Spec.first_violation
    (map (λ o, if map_has st (allowedOrderFields c) (Order_Field o) then None
               else Some (fmt_Errorf "field %q not allowed in order by"
                            [ArgString (Order_Field o)])) os).
Proof.
  induction os as [|o os IH]; simpl; [reflexivity|].
  destruct (map_has st (allowedOrderFields c) (Order_Field o)); simpl;
    [exact IH | reflexivity].
Qed.

Lemma validateOrderBy_first_disallowed pre o post :
  Forall (λ o', Order_Field o' ∈ map_deref st (allowedOrderFields c)) pre →
  Order_Field o ∉ map_deref st (allowedOrderFields c) →
  validateOrderBy st c (pre ++ o :: post) =
  Some (fmt_Errorf "field %q not allowed in order by" [ArgString (Order_Field o)]).
Proof.
  intros Hpre Ho. induction Hpre as [|o' pre Ho' _ IH]; simpl.
  - apply map_has_false in Ho. rewrite Ho. reflexivity.
  - apply map_has_true in Ho'. rewrite Ho'. exact IH.
Qed.

Lemma validateSearchRequest_first_violation s :
  validateSearchRequest st c s =
  Spec.first_violation (Spec.request_checks st c s).
Proof.
  unfold validateSearchRequest, validateMaxLimit, Spec.request_checks.
  rewrite !first_violation_app.
  rewrite <- validateOrderBy_first_violation.
  destruct (Limit s) as [l|]; simpl.
  - destruct (l <? 0); simpl; [reflexivity|].
    destruct (limit c) as [m|]; simpl.
    + destruct (l >? m); simpl; [reflexivity|].
      destruct (Offset s) as [o|]; simpl;
        [destruct (o <? 0); simpl; [reflexivity|] |];
        (destruct (validateOrderBy st c (OrderBy s)); [reflexivity|]);
        (destruct (Groups s) as [g|]; simpl;
          [rewrite <- validateGroup_at_first_violation;
           destruct (validateGroup_at st c g) |]; reflexivity).
    + destruct (Offset s) as [o|]; simpl;
        [destruct (o <? 0); simpl; [reflexivity|] |];
        (destruct (validateOrderBy st c (OrderBy s)); [reflexivity|]);
        (destruct (Groups s) as [g|]; simpl;
          [rewrite <- validateGroup_at_first_violation;
           destruct (validateGroup_at st c g) |]; reflexivity).
  - destruct (limit c) as [m|]; simpl; [reflexivity|].
    destruct (Offset s) as [o|]; simpl;
      [destruct (o <? 0); simpl; [reflexivity|] |];
      (destruct (validateOrderBy st c (OrderBy s)); [reflexivity|]);
      (destruct (Groups s) as [g|]; simpl;
        [rewrite <- validateGroup_at_first_violation;
         destruct (validateGroup_at st c g) |]; reflexivity).
Qed.

End CheckOrder.

Lemma validateSearchRequest_after_limit st c s :
  Spec.limit_ok c s →
  validateSearchRequest st c s =
  if match Offset s with Some o => o <? 0 | None => false end
  then Some (errors_New "offset must be null or >= 0")
  else match validateOrderBy st c (OrderBy s) with
       | Some err => Some err
       | None => validateGroup st c (Groups s)
       end.
Proof.
  intros [Hl Hm]. unfold validateSearchRequest, validateMaxLimit.
  destruct (Limit s) as [l|].
  - specialize (Hl l eq_refl). destruct (Z.ltb_spec l 0); [lia|].
    destruct (limit c) as [m|].
    + destruct (Hm m eq_refl) as (l' & [= <-] & Hle).
      destruct (Z.gtb_spec l m); [lia|].
      destruct (validateGroup st c (Groups s)); reflexivity.
    + destruct (validateGroup st c (Groups s)); reflexivity.
  - destruct (limit c) as [m|].
    + destruct (Hm m eq_refl) as (l' & [=] & _).
    + destruct (validateGroup st c (Groups s)); reflexivity.
Qed.

Lemma validateSearchRequest_after_offset st c s :
  Spec.limit_ok c s → Spec.offset_ok s →
  validateSearchRequest st c s =
  match validateOrderBy st c (OrderBy s) with
  | Some err => Some err
  | None => validateGroup st c (Groups s)
  end.
Proof.
  intros Hlim Hoff. rewrite validateSearchRequest_after_limit by exact Hlim.
  unfold Spec.offset_ok in Hoff.
  destruct (Offset s) as [o|]; [|reflexivity].
  specialize (Hoff o eq_refl). destruct (Z.ltb_spec o 0); [lia | reflexivity].
Qed.

(** C5: the validator reports the first violation of the checks taken in
    the fixed order: limit non-negativity, then (under a configured ceiling)
    limit presence and limit against the ceiling, then offset
    non-negativity, then the order clauses in clause order, then the root
    group; a violation of an earlier check hides every later one. *)
Theorem validateSearchRequest_fixed_check_order
    (st : State) (c : config) (s : SearchRequest) :
  validateSearchRequest st c s =
    Spec.first_violation (Spec.request_checks st c s)
  ∧ (∀ l, Limit s = Some l → l < 0 →
       validateSearchRequest st c s =
       Some (errors_New "limit must be null or >= 0"))
  ∧ (∀ m, limit c = Some m → Limit s = None →
       validateSearchRequest st c s = Some (errors_New "limit is mandatory"))
  ∧ (∀ m l, limit c = Some m → Limit s = Some l → 0 ≤ l → m < l →
       validateSearchRequest st c s =
       Some (fmt_Errorf "limit must be between 0 and %d" [ArgInt m]))
  ∧ (∀ o, Spec.limit_ok c s → Offset s = Some o → o < 0 →
       validateSearchRequest st c s =
       Some (errors_New "offset must be null or >= 0"))
  ∧ (∀ pre oc post,
       Spec.limit_ok c s → Spec.offset_ok s →
       OrderBy s = pre ++ oc :: post →
       Forall (λ o, Order_Field o ∈ map_deref st (allowedOrderFields c)) pre →
       Order_Field oc ∉ map_deref st (allowedOrderFields c) →
       validateSearchRequest st c s =
       Some (fmt_Errorf "field %q not allowed in order by"
               [ArgString (Order_Field oc)]))
  ∧ (Spec.limit_ok c s → Spec.offset_ok s →
     Forall (λ o, Order_Field o ∈ map_deref st (allowedOrderFields c)) (OrderBy s) →
     validateSearchRequest st c s = validateGroup st c (Groups s)).
Proof.
  split; [apply validateSearchRequest_first_violation|].
  split; [|split; [|split; [|split; [|split]]]].
  - intros l Hl Hneg. unfold validateSearchRequest. rewrite Hl.
    destruct (Z.ltb_spec l 0); [reflexivity | lia].
  - intros m Hm Hl. unfold validateSearchRequest, validateMaxLimit.
    rewrite Hl, Hm. reflexivity.
  - intros m l Hm Hl Hl0 Hlt. unfold validateSearchRequest, validateMaxLimit.
    rewrite Hl, Hm. destruct (Z.ltb_spec l 0); [lia|].
    destruct (Z.gtb_spec l m); [reflexivity | lia].
  - intros o Hlim Ho Hneg. rewrite validateSearchRequest_after_limit by exact Hlim.
    rewrite Ho. destruct (Z.ltb_spec o 0); [reflexivity | lia].
  - intros pre oc post Hlim Hoff Hob Hpre Hoc.
    rewrite validateSearchRequest_after_offset by assumption.
    rewrite Hob, (validateOrderBy_first_disallowed st c pre oc post Hpre Hoc).
    reflexivity.
  - intros Hlim Hoff Hob.
    rewrite validateSearchRequest_after_offset by assumption.
    apply validateOrderBy_nil_iff in Hob. rewrite Hob. reflexivity.
Qed.

Lemma validateFilters_first_disallowed st c pre f post :
  Forall (λ f', Filter_Field f' ∈ map_deref st (allowedFilterFields c)
                ∧ Filter_Op f' ∈ map_deref st (allowedRelationalOperators c)) pre →
  (Filter_Field f ∉ map_deref st (allowedFilterFields c) →
   validateFilters st c (pre ++ f :: post) =
   Some (fmt_Errorf "field %q not allowed in filters" [ArgString (Filter_Field f)]))
  ∧ (Filter_Field f ∈ map_deref st (allowedFilterFields c) →
     Filter_Op f ∉ map_deref st (allowedRelationalOperators c) →
     validateFilters st c (pre ++ f :: post) =
     Some (fmt_Errorf "relational operator %q not allowed for field %q"
             [ArgString (Filter_Op f); ArgString (Filter_Field f)])).
Proof.
  intros Hpre. induction Hpre as [|f' pre [Hf' Ho'] _ IH]; simpl.
  - split.
    + intros Hf. apply map_has_false in Hf. rewrite Hf. reflexivity.
    + intros Hf Ho. apply map_has_true in Hf. apply map_has_false in Ho.
      rewrite Hf, Ho. reflexivity.
  - apply map_has_true in Hf', Ho'. rewrite Hf', Ho'. exact IH.
Qed.

Lemma validateGroups_first_failing st c pre sg post err :
  Forall (λ g, validateGroup_at st c g = None) pre →
  validateGroup_at st c sg = Some err →
  validateGroups st c (pre ++ sg :: post) = Some err.
Proof.
  intros Hpre Hsg. induction Hpre as [|g pre Hg _ IH]; simpl.
  - rewrite Hsg. reflexivity.
  - rewrite Hg. exact IH.
Qed.

(** C6: a group is validated depth-first, pre-order, in declaration order:
    its operator first, then its filters in sequence (field, then operator),
    then its subgroups in sequence.  A violation among the filters of a
    group is reported whatever its subgroups contain, and a violation inside
    a subgroup is reported only when the operator and all filters of the
    parent, and all earlier subgroups, have passed. *)
Theorem validateGroup_depth_first_preorder
    (st : State) (c : config)
    (op : LogicalOperator) (fs : list Filter) (gs : list FilterGroup) :
  let g := mkFilterGroup op fs gs in
  validateGroup_at st c g = Spec.first_violation (Spec.group_checks st c g)
  ∧ (op ∉ map_deref st (allowedLogicalOperators c) →
     validateGroup_at st c g =
     Some (fmt_Errorf "logical operator %q not allowed" [ArgString op]))
  ∧ (∀ err, op ∈ map_deref st (allowedLogicalOperators c) →
       validateFilters st c fs = Some err →
       validateGroup_at st c g = Some err)
  ∧ (∀ pre f post,
       fs = pre ++ f :: post →
       Forall (λ f', Filter_Field f' ∈ map_deref st (allowedFilterFields c)
                     ∧ Filter_Op f' ∈ map_deref st (allowedRelationalOperators c))
         pre →
       (Filter_Field f ∉ map_deref st (allowedFilterFields c) →
        validateFilters st c fs =
        Some (fmt_Errorf "field %q not allowed in filters"
                [ArgString (Filter_Field f)]))
       ∧ (Filter_Field f ∈ map_deref st (allowedFilterFields c) →
          Filter_Op f ∉ map_deref st (allowedRelationalOperators c) →
          validateFilters st c fs =
          Some (fmt_Errorf "relational operator %q not allowed for field %q"
                  [ArgString (Filter_Op f); ArgString (Filter_Field f)])))
  ∧ (∀ pre sg post err,
       op ∈ map_deref st (allowedLogicalOperators c) →
       validateFilters st c fs = None →
       gs = pre ++ sg :: post →
       Forall (λ g', validateGroup_at st c g' = None) pre →
       validateGroup_at st c sg = Some err →
       validateGroup_at st c g = Some err).
Proof.
  intros g. subst g.
  split; [apply validateGroup_at_first_violation|].
  split; [|split; [|split]].
  - intros Hop. rewrite validateGroup_at_unfold.
    apply map_has_false in Hop. rewrite Hop. reflexivity.
  - intros err Hop Hfs. rewrite validateGroup_at_unfold.
    apply map_has_true in Hop. rewrite Hop, Hfs. reflexivity.
  - intros pre f post -> Hpre.
    apply validateFilters_first_disallowed. exact Hpre.
  - intros pre sg post err Hop Hfs -> Hpre Hsg.
    rewrite validateGroup_at_unfold.
    apply map_has_true in Hop. rewrite Hop, Hfs. simpl.
    apply validateGroups_first_failing; assumption.
Qed.

Lemma validateSearchRequest_fixed_check_order_witness :
  let '(c, st) := example_handler in
  validateSearchRequest st c
    {| Groups := Some (mkFilterGroup "xor" [] []);
       OrderBy := [mkOrderClause "email" "asc"];
       Limit := Some (-1);
       Offset := Some (-1) |}
  = Some (errors_New "limit must be null or >= 0")
  ∧ validateSearchRequest st c
      {| Groups := Some (mkFilterGroup "xor" [] []);
         OrderBy := [mkOrderClause "id" "asc"; mkOrderClause "email" "asc"];
         Limit := Some 5;
         Offset := Some 0 |}
    = Some (fmt_Errorf "field %q not allowed in order by" [ArgString "email"]).
Proof.
  unfold example_handler.
  destruct (NewSearchHandler _ initial_state) as [c st] eqn:Hh.
  injection Hh as <- <-.
  split.
  - eapply validateSearchRequest_fixed_check_order; [reflexivity | simpl; lia].
  - match goal with
    | |- validateSearchRequest ?st ?c ?s = _ =>
        destruct (validateSearchRequest_fixed_check_order st c s)
          as (_ & _ & _ & _ & _ & Hord & _)
    end.
    apply (Hord [mkOrderClause "id" "asc"] (mkOrderClause "email" "asc") []).
    + split; simpl.
      * intros l [= <-]. lia.
      * intros m [= <-]. exists 5. split; [reflexivity | lia].
    + intros o [= <-]. lia.
    + reflexivity.
    + constructor; [|constructor]. apply (bool_decide_unpack _). vm_compute. exact I.
    + apply (bool_decide_unpack _). vm_compute. exact I.
Defined.

Lemma validateGroup_depth_first_preorder_witness :
  let '(c, st) := example_handler in
  validateGroup_at st c
    (mkFilterGroup "and"
       [mkFilter "id" "eq" "1"; mkFilter "email" "eq" "x"]
       [mkFilterGroup "xor" [] []])
  = Some (fmt_Errorf "field %q not allowed in filters" [ArgString "email"]).
Proof.
  unfold example_handler.
  destruct (NewSearchHandler _ initial_state) as [c st] eqn:Hh.
  injection Hh as <- <-.
  match goal with
  | |- validateGroup_at ?st ?c (mkFilterGroup ?op ?fs ?gs) = _ =>
      destruct (validateGroup_depth_first_preorder st c op fs gs)
        as (_ & _ & Hfilters & _)
  end.
  apply Hfilters.
  - apply (bool_decide_unpack _). vm_compute. exact I.
  - vm_compute. reflexivity.
Defined.

(** ** What a validation error carries *)

Lemma append_empty_r (s : string) : s +:+ "" = s.
Proof.
  induction s as [|ch s IH]; [reflexivity|].
  change (String ch (s +:+ "") = String ch s). by rewrite IH.
Qed.

Lemma validateFilters_error_origin st c fs err :
  validateFilters st c fs = Some err →
  ∃ f, f ∈ fs
    ∧ (((Filter_Field f ∉ map_deref st (allowedFilterFields c))
        ∧ err = fmt_Errorf "field %q not allowed in filters"
                  [ArgString (Filter_Field f)])
       ∨ ((Filter_Op f ∉ map_deref st (allowedRelationalOperators c))
          ∧ err = fmt_Errorf "relational operator %q not allowed for field %q"
                    [ArgString (Filter_Op f); ArgString (Filter_Field f)])).
Proof.
  induction fs as [|f fs IH]; simpl; [discriminate|].
  destruct (map_has st (allowedFilterFields c) (Filter_Field f)) eqn:Hf; simpl.
  - destruct (map_has st (allowedRelationalOperators c) (Filter_Op f)) eqn:Ho;
      simpl.
    + intros Herr. destruct (IH Herr) as (f' & Hin & Hcase).
      exists f'. split; [by apply list_elem_of_further | exact Hcase].
    + intros [= <-]. apply map_has_false in Ho.
      exists f. split; [apply list_elem_of_here | right; by split].
  - intros [= <-]. apply map_has_false in Hf.
    exists f. split; [apply list_elem_of_here | left; by split].
Qed.

Lemma validateOrderBy_error_origin st c os err :
  validateOrderBy st c os = Some err →
  ∃ o, o ∈ os
    ∧ (Order_Field o ∉ map_deref st (allowedOrderFields c))
    ∧ err = fmt_Errorf "field %q not allowed in order by"
              [ArgString (Order_Field o)].
Proof.
  induction os as [|o os IH]; simpl; [discriminate|].
  destruct (map_has st (allowedOrderFields c) (Order_Field o)) eqn:Ho; simpl.
  - intros Herr. destruct (IH Herr) as (o' & Hin & Hcase).
    exists o'. split; [by apply list_elem_of_further | exact Hcase].
  - intros [= <-]. apply map_has_false in Ho.
    exists o. split; [apply list_elem_of_here | by split].
Qed.

Lemma validateGroups_error_origin st c gs err :
  validateGroups st c gs = Some err →
  ∃ sg, sg ∈ gs ∧ validateGroup_at st c sg = Some err.
Proof.
  induction gs as [|sg gs IH]; simpl; [discriminate|].
  destruct (validateGroup_at st c sg) eqn:Hsg.
  - intros [= <-]. exists sg. split; [apply list_elem_of_here | exact Hsg].
  - intros Herr. destruct (IH Herr) as (sg' & Hin & Hsg').
    exists sg'. split; [by apply list_elem_of_further | exact Hsg'].
Qed.

Lemma validateGroup_at_error_origin st c root err :
  validateGroup_at st c root = Some err →
  (∃ g, Spec.group_in g root
     ∧ (Group_Op g ∉ map_deref st (allowedLogicalOperators c))
     ∧ err = fmt_Errorf "logical operator %q not allowed" [ArgString (Group_Op g)])
  ∨ (∃ f, Spec.filter_in f root
       ∧ (Filter_Field f ∉ map_deref st (allowedFilterFields c))
       ∧ err = fmt_Errorf "field %q not allowed in filters"
                 [ArgString (Filter_Field f)])
  ∨ (∃ f, Spec.filter_in f root
       ∧ (Filter_Op f ∉ map_deref st (allowedRelationalOperators c))
       ∧ err = fmt_Errorf "relational operator %q not allowed for field %q"
                 [ArgString (Filter_Op f); ArgString (Filter_Field f)]).
Proof.
  revert err.
  induction root as [op fs gs IH] using FilterGroup_tree_ind.
  intros err. rewrite validateGroup_at_unfold.
  destruct (map_has st (allowedLogicalOperators c) op) eqn:Hop; simpl.
  - destruct (validateFilters st c fs) as [e|] eqn:Hfs.
    + intros [= <-].
      destruct (validateFilters_error_origin _ _ _ _ Hfs)
        as (f & Hin & [[Hf ->]|[Ho ->]]).
      * right; left. exists f. split; [|by split].
        exists (mkFilterGroup op fs gs). split; [constructor | exact Hin].
      * right; right. exists f. split; [|by split].
        exists (mkFilterGroup op fs gs). split; [constructor | exact Hin].
    + intros Herr.
      destruct (validateGroups_error_origin _ _ _ _ Herr) as (sg & Hin & Hsg).
      rewrite Forall_forall in IH.
      destruct (IH sg Hin err Hsg)
        as [(g & Hg & Hcase)|[(f & (g & Hg & Hf) & Hcase)|(f & (g & Hg & Hf) & Hcase)]].
      * left. exists g. split; [|exact Hcase].
        eapply Spec.group_in_nested; [exact Hin | exact Hg].
      * right; left. exists f. split; [|exact Hcase].
        exists g. split; [|exact Hf].
        eapply Spec.group_in_nested; [exact Hin | exact Hg].
      * right; right. exists f. split; [|exact Hcase].
        exists g. split; [|exact Hf].
        eapply Spec.group_in_nested; [exact Hin | exact Hg].
  - intros [= <-]. apply map_has_false in Hop. left.
    exists (mkFilterGroup op fs gs). split; [constructor | by split].
Qed.

(** C8, as stated, fails for the limit and offset errors: the error for a
    negative limit is the same fixed text whatever the limit is, so the
    offending value cannot be read off the error (nor off its message, which
    is a function of the error). *)
Lemma negative_limit_error_carries_no_value :
  ¬ ∃ carried : error → Z,
      ∀ (st : State) (c : config) (s : SearchRequest) (l : Z) (e : error),
        Limit s = Some l → l < 0 →
        validateSearchRequest st c s = Some e →
        carried e = l.
Proof.
  intros [carried Hall].
  pose proof (Hall initial_state (NewSearchHandler [] initial_state).1
                {| Groups := None; OrderBy := []; Limit := Some (-5);
                   Offset := None |}
                (-5) (errors_New "limit must be null or >= 0")
                eq_refl eq_refl eq_refl) as H5.
  pose proof (Hall initial_state (NewSearchHandler [] initial_state).1
                {| Groups := None; OrderBy := []; Limit := Some (-6);
                   Offset := None |}
                (-6) (errors_New "limit must be null or >= 0")
                eq_refl eq_refl eq_refl) as H6.
  lia.
Qed.

Lemma validate_tail_diagnostics st c s e :
  (if match Offset s with Some o => o <? 0 | None => false end
   then Some (errors_New "offset must be null or >= 0")
   else match validateOrderBy st c (OrderBy s) with
        | Some err => Some err
        | None =>
            match validateGroup st c (Groups s) with
            | Some err => Some err
            | None => None
            end
        end) = Some e →
  ∃ v : Spec.ValidationError,
    Spec.exhibits st c s v
    ∧ error_args e = Spec.payload v
    ∧ ∀ quote, Error quote e = Spec.message quote v.
Proof.
  intros Hv.
  destruct (match Offset s with Some o => o <? 0 | None => false end) eqn:Hoff.
  { injection Hv as <-. exists Spec.InvalidOffset.
    destruct (Offset s) as [o|] eqn:Ho; [|discriminate].
    apply Z.ltb_lt in Hoff.
    split; [by eapply Spec.exhibits_InvalidOffset | by split]. }
  destruct (validateOrderBy st c (OrderBy s)) as [e'|] eqn:Hob.
  { injection Hv as <-.
    destruct (validateOrderBy_error_origin _ _ _ _ Hob) as (o & Hin & Hno & ->).
    exists (Spec.OrderFieldNotAllowed (Order_Field o)).
    split; [by apply Spec.exhibits_OrderFieldNotAllowed | by split]. }
  destruct (Groups s) as [root|] eqn:Hroot; simpl in Hv; [|discriminate].
  destruct (validateGroup_at st c root) as [e'|] eqn:Hg; [|discriminate].
  injection Hv as <-.
  destruct (validateGroup_at_error_origin _ _ _ _ Hg)
    as [(g & Hin & Hno & ->)|[(f & Hin & Hno & ->)|(f & Hin & Hno & ->)]].
  - exists (Spec.LogicalOperatorNotAllowed (Group_Op g)).
    split; [by eapply Spec.exhibits_LogicalOperatorNotAllowed | by split].
  - exists (Spec.FilterFieldNotAllowed (Filter_Field f)).
    split; [by eapply Spec.exhibits_FilterFieldNotAllowed | by split].
  - exists (Spec.RelationalOperatorNotAllowed (Filter_Op f) (Filter_Field f)).
    split; [by eapply Spec.exhibits_RelationalOperatorNotAllowed |].
    split; [reflexivity|]. intros quote. simpl.
    change ("relational operator "
            +:+ (quote (Filter_Op f) +:+ " not allowed for field "
            +:+ (quote (Filter_Field f) +:+ ""))
            = "relational operator " +:+ quote (Filter_Op f)
              +:+ " not allowed for field " +:+ quote (Filter_Field f)).
    by rewrite append_empty_r.
Qed.

(** C8, amended: every error of the validator is one of the eight
    failures, exhibited by the specification.  Exceeding the ceiling reports
    the configured ceiling (not the requested limit); a disallowed order or
    filter field is reported with that field, quoted; a disallowed logical
    or relational operator is reported with that operator, quoted (and, for
    a relational operator, the filter's field).  The negative-limit,
    missing-limit and negative-offset errors are fixed texts built from no
    argument. *)
Theorem validation_error_diagnostics
    (st : State) (c : config) (s : SearchRequest) (e : error) :
  validateSearchRequest st c s = Some e →
  ∃ v : Spec.ValidationError,
    Spec.exhibits st c s v
    ∧ error_args e = Spec.payload v
    ∧ ∀ quote, Error quote e = Spec.message quote v.
Proof.
  unfold validateSearchRequest, validateMaxLimit. intros Hv.
  destruct (Limit s) as [l|] eqn:Hl.
  - destruct (Z.ltb_spec l 0) as [Hneg|Hl0].
    { injection Hv as <-. exists Spec.InvalidLimit.
      split; [by eapply Spec.exhibits_InvalidLimit | by split]. }
    destruct (limit c) as [m|] eqn:Hm.
    + destruct (Z.gtb_spec l m) as [Hgt|Hle].
      { injection Hv as <-. exists (Spec.LimitExceeded m).
        split; [eapply Spec.exhibits_LimitExceeded; [done | done | lia] |].
        split; [reflexivity|]. intros quote. simpl.
        change (("limit must be between 0 and " +:+ (pretty m +:+ ""))
                = "limit must be between 0 and " +:+ pretty m).
        by rewrite append_empty_r. }
      apply validate_tail_diagnostics. exact Hv.
    + apply validate_tail_diagnostics. exact Hv.
  - destruct (limit c) as [m|] eqn:Hm.
    + injection Hv as <-. exists Spec.LimitMandatory.
      split; [by eapply Spec.exhibits_LimitMandatory | by split].
    + apply validate_tail_diagnostics. exact Hv.
Qed.

Lemma validation_error_diagnostics_witness :
  ∃ v : Spec.ValidationError,
    Spec.exhibits example_handler.2 example_handler.1
      {| Groups := None; OrderBy := []; Limit := Some 20; Offset := None |} v
    ∧ error_args (fmt_Errorf "limit must be between 0 and %d" [ArgInt 10])
      = Spec.payload v
    ∧ ∀ quote,
        Error quote (fmt_Errorf "limit must be between 0 and %d" [ArgInt 10])
        = Spec.message quote v.
Proof.
  apply validation_error_diagnostics. vm_compute. reflexivity.
Defined.

(** ** The pipeline *)

Section Pipeline.

Variable json_Decode : string → SearchRequest + error.
Variable c : config.
Variable st : State.

Lemma ServeHTTP_empty_value (r : Request) :
  Values_Get (URL_Query r) (queryParam c) = "" →
  ServeHTTP json_Decode c st r =
  if isSearchMandatory c
  then [CallErrorHandler (errorHandler c) r (missing_parameter c)]
  else [ServeNext r].
Proof.
  intros Hget. unfold ServeHTTP. rewrite Hget. simpl.
  destruct (isSearchMandatory c); reflexivity.
Qed.

Lemma ServeHTTP_present_value (r : Request) :
  Values_Get (URL_Query r) (queryParam c) ≠ "" →
  ServeHTTP json_Decode c st r =
  let s := Values_Get (URL_Query r) (queryParam c) in
  Decode s ::
  match json_Decode s with
  | inr err => [CallErrorHandler (errorHandler c) r err]
  | inl search =>
      Validate search ::
      match validateSearchRequest st c search with
      | Some err => [CallErrorHandler (errorHandler c) r err]
      | None =>
          [ServeNext
             (WithContext r
                (context_WithValue (Context r) searchKey
                   (SearchRequestPtr search)))]
      end
  end.
Proof.
  intros Hget. unfold ServeHTTP.
  destruct (String.eqb_spec (Values_Get (URL_Query r) (queryParam c)) "")
    as [Heq|_]; [contradiction | reflexivity].
Qed.

(** C4: every request makes exactly one call to a collaborator.  When the
    parameter is missing and mandatory, when decoding fails or when
    validation fails, that call is the error callback, with that error and
    with the request as it came in (nothing attached), and the next handler
    is not called; when decoding and validation succeed, that call is the next
    handler, with the decoded specification attached to the request, and the
    error callback is not called. *)
Theorem ServeHTTP_one_outcome (r : Request) :
  let s := Values_Get (URL_Query r) (queryParam c) in
  let calls := handler_calls (ServeHTTP json_Decode c st r) in
  (∃ ev, calls = [ev])
  ∧ (s = "" → isSearchMandatory c = true →
     calls = [CallErrorHandler (errorHandler c) r (missing_parameter c)])
  ∧ (∀ err, s ≠ "" → json_Decode s = inr err →
       calls = [CallErrorHandler (errorHandler c) r err])
  ∧ (∀ search err,
       s ≠ "" → json_Decode s = inl search →
       validateSearchRequest st c search = Some err →
       calls = [CallErrorHandler (errorHandler c) r err])
  ∧ (∀ search,
       s ≠ "" → json_Decode s = inl search →
       validateSearchRequest st c search = None →
       ∃ r', calls = [ServeNext r']
             ∧ GetSearchRequest r' = Some search
             ∧ URL_Query r' = URL_Query r).
Proof.
  intros s calls. subst s calls.
  split; [|split; [|split; [|split]]].
  - destruct (String.eqb_spec (Values_Get (URL_Query r) (queryParam c)) "")
      as [Heq|Hne].
    + rewrite (ServeHTTP_empty_value r Heq).
      destruct (isSearchMandatory c); eexists; reflexivity.
    + rewrite (ServeHTTP_present_value r Hne). simpl.
      destruct (json_Decode _) as [search|err]; simpl; [|eexists; reflexivity].
      destruct (validateSearchRequest st c search); eexists; reflexivity.
  - intros Heq Hmand. rewrite (ServeHTTP_empty_value r Heq), Hmand. reflexivity.
  - intros err Hne Hdec. rewrite (ServeHTTP_present_value r Hne). simpl.
    rewrite Hdec. reflexivity.
  - intros search err Hne Hdec Hval. rewrite (ServeHTTP_present_value r Hne).
    simpl. rewrite Hdec. simpl. rewrite Hval. reflexivity.
  - intros search Hne Hdec Hval. rewrite (ServeHTTP_present_value r Hne).
    simpl. rewrite Hdec. simpl. rewrite Hval. simpl.
    eexists. split; [reflexivity|]. split; [|reflexivity].
    reflexivity.
Qed.

(** C7: when the request has no value for the configured parameter, a
    mandatory policy makes the handler call the error callback with the
    missing-parameter error and nothing else, and a non-mandatory policy makes
    it call the next handler with the request unchanged and nothing else; in
    both cases neither the decoder nor the validator is called. *)
Theorem ServeHTTP_absent_parameter (r : Request) :
  URL_Query r !! queryParam c = None →
  ServeHTTP json_Decode c st r =
    (if isSearchMandatory c
     then [CallErrorHandler (errorHandler c) r (missing_parameter c)]
     else [ServeNext r])
  ∧ Forall (λ ev, is_decode_or_validate ev = false)
      (ServeHTTP json_Decode c st r).
Proof.
  intros Habsent.
  assert (Hget : Values_Get (URL_Query r) (queryParam c) = "").
  { unfold Values_Get. rewrite Habsent. reflexivity. }
  rewrite (ServeHTTP_empty_value r Hget). split; [reflexivity|].
  destruct (isSearchMandatory c); repeat constructor.
Qed.

(** C10: when the configured parameter is present and its (first) value is
    the empty string, the handler does what it does for an absent parameter:
    error callback with the missing-parameter error under a mandatory policy,
    next handler with the request unchanged otherwise; the decoder is not
    called, so no decode error can arise. *)
Theorem ServeHTTP_empty_parameter (r : Request) (more : list string) :
  URL_Query r !! queryParam c = Some ("" :: more) →
  ServeHTTP json_Decode c st r =
    (if isSearchMandatory c
     then [CallErrorHandler (errorHandler c) r (missing_parameter c)]
     else [ServeNext r])
  ∧ (∀ input, Decode input ∉ ServeHTTP json_Decode c st r).
Proof.
  intros Hpresent.
  assert (Hget : Values_Get (URL_Query r) (queryParam c) = "").
  { unfold Values_Get. rewrite Hpresent. reflexivity. }
  rewrite (ServeHTTP_empty_value r Hget). split; [reflexivity|].
  intros input Hin.
  destruct (isSearchMandatory c);
    apply list_elem_of_singleton in Hin; discriminate Hin.
Qed.

End Pipeline.

Lemma ServeHTTP_one_outcome_witness :
  handler_calls
    (ServeHTTP example_Decode example_handler.1 example_handler.2
       (example_request "{limit:20}"))
  = [CallErrorHandler badRequestHandler (example_request "{limit:20}")
       (fmt_Errorf "limit must be between 0 and %d" [ArgInt 10])].
Proof.
  destruct (ServeHTTP_one_outcome example_Decode example_handler.1
              example_handler.2 (example_request "{limit:20}"))
    as (_ & _ & _ & Hinvalid & _).
  apply (Hinvalid
           {| Groups := None; OrderBy := []; Limit := Some 20; Offset := None |}).
  - vm_compute. discriminate.
  - vm_compute. reflexivity.
  - vm_compute. reflexivity.
Defined.

Lemma ServeHTTP_absent_parameter_witness :
  let c := (NewSearchHandler [] initial_state).1 in
  let r := {| URL_Query := ∅; Context := [] |} in
  ServeHTTP example_Decode c initial_state r
  = [CallErrorHandler badRequestHandler r (missing_parameter c)]
  ∧ Forall (λ ev, is_decode_or_validate ev = false)
      (ServeHTTP example_Decode c initial_state r).
Proof.
  apply (ServeHTTP_absent_parameter example_Decode
           (NewSearchHandler [] initial_state).1 initial_state
           {| URL_Query := ∅; Context := [] |}).
  reflexivity.
Defined.

Lemma ServeHTTP_empty_parameter_witness :
  let c := (NewSearchHandler [WithSearchMandatory false] initial_state).1 in
  ServeHTTP example_Decode c initial_state (example_request "")
  = [ServeNext (example_request "")]
  ∧ (∀ input,
       Decode input ∉ ServeHTTP example_Decode c initial_state (example_request "")).
Proof.
  apply (ServeHTTP_empty_parameter example_Decode
           (NewSearchHandler [WithSearchMandatory false] initial_state).1
           initial_state (example_request "") []).
  vm_compute. reflexivity.
Defined.

(** ** The policy of a handler and the process-wide defaults *)

Lemma map_deref_clear l st :
  is_Some (maps st !! l) → map_deref (map_clear l st) l = ∅.
Proof.
  intros [m Hm]. unfold map_deref, map_clear. simpl.
  rewrite lookup_alter_eq, Hm. reflexivity.
Qed.

Lemma map_store_allocated l l' k st :
  is_Some (maps st !! l') → is_Some (maps (map_store l k st) !! l').
Proof.
  intros Hl'. unfold map_store. simpl.
  destruct (decide (l = l')) as [->|Hne].
  - rewrite lookup_alter_eq. by apply fmap_is_Some.
  - by rewrite lookup_alter_ne.
Qed.

Lemma map_deref_store l k st :
  is_Some (maps st !! l) →
  map_deref (map_store l k st) l = {[k]} ∪ map_deref st l.
Proof.
  intros [m Hm]. unfold map_deref, map_store. simpl.
  rewrite lookup_alter_eq, Hm. reflexivity.
Qed.

Lemma map_deref_store_all l ks st :
  is_Some (maps st !! l) →
  map_deref (map_store_all l ks st) l = list_to_set ks ∪ map_deref st l.
Proof.
  unfold map_store_all. revert st.
  induction ks as [|k ks IH]; intros st Hl; simpl.
  - set_solver.
  - rewrite IH by (by apply map_store_allocated).
    rewrite map_deref_store by exact Hl. set_solver.
Qed.

Lemma map_store_all_globals l ks st :
  globals (map_store_all l ks st) = globals st.
Proof.
  unfold map_store_all. revert st.
  induction ks as [|k ks IH]; intros st; simpl; [reflexivity|].
  rewrite IH. reflexivity.
Qed.

(** The "replace" option of one handler replaces the process-wide default
    set: the handler's [config] holds the very map the package variable
    holds. *)
Lemma WithFilterFields_replaces_default_set (fields : list string) (st : State) :
  is_Some (maps st !! defaultFilterFields (globals st)) →
  let h := NewSearchHandler [WithFilterFields fields] st in
  allowedFilterFields h.1 = defaultFilterFields (globals h.2)
  ∧ map_deref h.2 (defaultFilterFields (globals h.2)) = list_to_set fields.
Proof.
  intros Halloc. simpl.
  rewrite map_store_all_globals. simpl. split; [reflexivity|].
  rewrite map_deref_store_all.
  - rewrite map_deref_clear by exact Halloc. set_solver.
  - unfold map_clear. simpl. rewrite lookup_alter_eq. by apply fmap_is_Some.
Qed.

(** A later [SetDefaultFilterFields] changes the filter fields of a handler
    built before it. *)
Lemma SetDefaultFilterFields_changes_built_handler
    (fields : list string) (st : State) :
  is_Some (maps st !! defaultFilterFields (globals st)) →
  let h := NewSearchHandler [] st in
  map_deref (SetDefaultFilterFields fields h.2) (allowedFilterFields h.1)
  = list_to_set fields.
Proof.
  intros Halloc. simpl. unfold SetDefaultFilterFields.
  rewrite map_deref_store_all.
  - rewrite map_deref_clear by exact Halloc. set_solver.
  - unfold map_clear. simpl. rewrite lookup_alter_eq. by apply fmap_is_Some.
Qed.

(** C3 does not hold of the code.  With the default filter fields set to
    [id], building a handler with [WithFilterFields "name"] leaves the
    process-wide default set equal to [name]; a second handler built with no
    option then allows [name], not [id]; and a later
    [SetDefaultFilterFields "email"] makes the first handler reject a filter
    on [name] that it accepted before. *)
Theorem handler_policy_aliases_default_sets :
  let st0 := SetDefaultFilterFields ["id"] initial_state in
  let h1 := NewSearchHandler [WithFilterFields ["name"]] st0 in
  let h2 := NewSearchHandler [] h1.2 in
  let st3 := SetDefaultFilterFields ["email"] h2.2 in
  let s := {| Groups := Some (mkFilterGroup "and" [mkFilter "name" "eq" "x"] []);
              OrderBy := []; Limit := None; Offset := None |} in
  map_deref st0 (defaultFilterFields (globals st0)) = {["id"]}
  ∧ map_deref h1.2 (defaultFilterFields (globals h1.2)) = {["name"]}
  ∧ map_deref h2.2 (allowedFilterFields h2.1) = {["name"]}
  ∧ map_deref st3 (allowedFilterFields h1.1) = {["email"]}
  ∧ validateSearchRequest h1.2 h1.1 s = None
  ∧ validateSearchRequest st3 h1.1 s
    = Some (fmt_Errorf "field %q not allowed in filters" [ArgString "name"]).
Proof.
  repeat split;
    first [ apply (bool_decide_unpack _); vm_compute; exact I
          | vm_compute; reflexivity ].
Qed.

(** Writing through a reference allocates nothing and assigns no package
    variable. *)
Lemma map_clear_frame l st :
  globals (map_clear l st) = globals st
  ∧ dom (maps (map_clear l st)) = dom (maps st).
Proof. unfold map_clear. simpl. split; [reflexivity | apply dom_alter_L]. Qed.

Lemma map_store_all_frame l ks st :
  globals (map_store_all l ks st) = globals st
  ∧ dom (maps (map_store_all l ks st)) = dom (maps st).
Proof.
  split; [apply map_store_all_globals|].
  unfold map_store_all. revert st.
  induction ks as [|k ks IH]; intros st; simpl; [reflexivity|].
  rewrite IH. unfold map_store. simpl. apply dom_alter_L.
Qed.

Lemma package_option_frame opt c st :
  package_option opt →
  config_maps (opt c st).1 = config_maps c
  ∧ globals (opt c st).2 = globals st
  ∧ dom (maps (opt c st).2) = dom (maps st).
Proof.
  intros Hopt. destruct Hopt; simpl;
    (split; [reflexivity|]);
    rewrite ?(proj1 (map_store_all_frame _ _ _)),
            ?(proj2 (map_store_all_frame _ _ _)),
            ?(proj1 (map_clear_frame _ _)), ?(proj2 (map_clear_frame _ _));
    split; reflexivity.
Qed.

(** Whatever options of the package a handler is built with, its four
    allow-sets are the four map objects of the package variables, no package
    variable is assigned and no map is allocated. *)
Lemma NewSearchHandler_shares_default_maps (opts : list Option) (st : State) :
  Forall package_option opts →
  let h := NewSearchHandler opts st in
  config_maps h.1 = config_maps (config_of_defaults (globals st))
  ∧ globals h.2 = globals st
  ∧ dom (maps h.2) = dom (maps st).
Proof.
  intros Hopts. unfold NewSearchHandler, apply_options. simpl.
  generalize (config_of_defaults (globals st)) as c.
  revert st. induction Hopts as [|opt opts Hopt _ IH]; intros st c; simpl.
  - repeat split; reflexivity.
  - destruct (package_option_frame opt c st Hopt) as (Hc & Hg & Hd).
    destruct (opt c st) as [c' st'] eqn:Hstep. simpl in *.
    destruct (IH st' c') as (Hc' & Hg' & Hd').
    rewrite Hc', Hg', Hd'. repeat split; assumption.
Qed.

(** * Further properties of the package *)

(** ** Symbols *)

(** X1: on the nine relational operators of the package, [Symbol] is
    injective: two known operators with the same symbol are the same
    operator. *)
Theorem RelationalOperator_Symbol_injective_on_known (a b : RelationalOperator) :
  a ∈ relationalOperators_keys → b ∈ relationalOperators_keys →
  RelationalOperator_Symbol a = RelationalOperator_Symbol b → a = b.
Proof.
  unfold relationalOperators_keys. intros Ha Hb.
  set_unfold in Ha. set_unfold in Hb.
  destruct_or!; subst; vm_compute; intros Heq;
    first [reflexivity | discriminate Heq].
Qed.

Lemma RelationalOperator_Symbol_injective_on_known_witness :
  LowerThanEqualsOperator ∈ relationalOperators_keys
  ∧ RelationalOperator_Symbol LowerThanEqualsOperator = "<="
  ∧ LowerThanEqualsOperator = "lte".
Proof.
  assert (Hin : LowerThanEqualsOperator ∈ relationalOperators_keys)
    by (apply (bool_decide_unpack _); vm_compute; exact I).
  split; [exact Hin|]. split; [reflexivity|].
  apply (RelationalOperator_Symbol_injective_on_known
           LowerThanEqualsOperator "lte" Hin Hin).
  reflexivity.
Defined.

(** X2: whatever the token, [RelationalOperator.Symbol] returns one of the
    nine canonical symbols, [LogicalOperator.Symbol] returns one of the two
    logical operators and [OrderDirection.Symbol] one of the two directions;
    the last two are idempotent, and a direction maps to [desc] only if it is
    [desc]. *)
Theorem Symbol_ranges (t : string) :
  RelationalOperator_Symbol t ∈ relational_symbols
  ∧ LogicalOperator_Symbol t ∈ logicalOperators_keys
  ∧ OrderDirection_Symbol t ∈ [OrderAsc; OrderDesc]
  ∧ LogicalOperator_Symbol (LogicalOperator_Symbol t) = LogicalOperator_Symbol t
  ∧ OrderDirection_Symbol (OrderDirection_Symbol t) = OrderDirection_Symbol t
  ∧ (OrderDirection_Symbol t = OrderDesc ↔ t = OrderDesc).
Proof.
  repeat split.
  - unfold RelationalOperator_Symbol.
    repeat match goal with
    | |- context [String.eqb t ?k] => destruct (String.eqb t k)
    end; apply (bool_decide_unpack _); vm_compute; exact I.
  - unfold LogicalOperator_Symbol. destruct (String.eqb t OrOperator);
      apply (bool_decide_unpack _); vm_compute; exact I.
  - unfold OrderDirection_Symbol. destruct (String.eqb t OrderDesc);
      apply (bool_decide_unpack _); vm_compute; exact I.
  - unfold LogicalOperator_Symbol. destruct (String.eqb t OrOperator); reflexivity.
  - unfold OrderDirection_Symbol. destruct (String.eqb t OrderDesc); reflexivity.
  - unfold OrderDirection_Symbol.
    destruct (String.eqb_spec t OrderDesc) as [->|Hne]; [reflexivity|].
    intros Heq. discriminate Heq.
  - intros ->. reflexivity.
Qed.

(** ** What validation looks at *)

Lemma validateFilters_forget_values st c fs :
  validateFilters st c (map forget_filter_value fs) = validateFilters st c fs.
Proof.
  induction fs as [|f fs IH]; simpl; [reflexivity|]. rewrite IH. reflexivity.
Qed.

Lemma validateOrderBy_forget_direction st c os :
  validateOrderBy st c (map forget_direction os) = validateOrderBy st c os.
Proof.
  induction os as [|o os IH]; simpl; [reflexivity|]. rewrite IH. reflexivity.
Qed.

Lemma validateGroup_at_forget_values st c g :
  validateGroup_at st c (forget_group_values g) = validateGroup_at st c g.
Proof.
  induction g as [op fs gs IH] using FilterGroup_tree_ind.
  change (forget_group_values (mkFilterGroup op fs gs))
    with (mkFilterGroup op (map forget_filter_value fs)
            (map forget_group_values gs)).
  rewrite !validateGroup_at_unfold, validateFilters_forget_values.
  destruct (negb _); [reflexivity|].
  destruct (validateFilters st c fs); [reflexivity|].
  induction IH as [|sg gs Hsg _ IHgs]; simpl; [reflexivity|].
  rewrite Hsg, IHgs. reflexivity.
Qed.

Lemma validateSearchRequest_forget_values st c s :
  validateSearchRequest st c (forget_values s) = validateSearchRequest st c s.
Proof.
  unfold validateSearchRequest, validateMaxLimit, forget_values. simpl.
  rewrite validateOrderBy_forget_direction.
  destruct (Groups s) as [g|]; simpl; [|reflexivity].
  rewrite validateGroup_at_forget_values. reflexivity.
Qed.

(** X3: validation never looks at a filter's value or at an order clause's
    direction: two specifications that differ only there get the same
    verdict, error included. *)
Theorem validateSearchRequest_ignores_values_and_directions
    (st : State) (c : config) (s1 s2 : SearchRequest) :
  forget_values s1 = forget_values s2 →
  validateSearchRequest st c s1 = validateSearchRequest st c s2.
Proof.
  intros Heq.
  rewrite <- (validateSearchRequest_forget_values st c s1), Heq.
  apply validateSearchRequest_forget_values.
Qed.

Lemma validateSearchRequest_ignores_values_and_directions_witness :
  validateSearchRequest example_handler.2 example_handler.1
    {| Groups := Some (mkFilterGroup "and" [mkFilter "id" "eq" "1"] []);
       OrderBy := [mkOrderClause "id" "desc"];
       Limit := Some 5; Offset := None |}
  = validateSearchRequest example_handler.2 example_handler.1
      {| Groups := Some (mkFilterGroup "and" [mkFilter "id" "eq" "; drop"] []);
         OrderBy := [mkOrderClause "id" "sideways"];
         Limit := Some 5; Offset := None |}.
Proof.
  apply validateSearchRequest_ignores_values_and_directions. reflexivity.
Defined.

(** The verdict of the validator, stage by stage. *)
Lemma validateSearchRequest_nil_stages st c s :
  validateSearchRequest st c s = None ↔
  Spec.limit_ok c s ∧ Spec.offset_ok s
  ∧ validateOrderBy st c (OrderBy s) = None
  ∧ validateGroup st c (Groups s) = None.
Proof.
  split.
  - intros Hv.
    assert (Hlim : Spec.limit_ok c s).
    { unfold validateSearchRequest, validateMaxLimit in Hv. split.
      - intros l Hl. rewrite Hl in Hv.
        destruct (Z.ltb_spec l 0); [discriminate | assumption].
      - intros m Hm. rewrite Hm in Hv.
        destruct (Limit s) as [l|]; [|discriminate].
        exists l. split; [reflexivity|].
        destruct (l <? 0); [discriminate|].
        destruct (Z.gtb_spec l m); [discriminate | assumption]. }
    rewrite validateSearchRequest_after_limit in Hv by exact Hlim.
    assert (Hoff : Spec.offset_ok s).
    { intros o Ho. rewrite Ho in Hv.
      destruct (Z.ltb_spec o 0); [discriminate | assumption]. }
    split; [exact Hlim|]. split; [exact Hoff|].
    destruct (match Offset s with Some o => o <? 0 | None => false end);
      [discriminate|].
    destruct (validateOrderBy st c (OrderBy s)); [discriminate|].
    split; [reflexivity | exact Hv].
  - intros (Hlim & Hoff & Hob & Hg).
    rewrite validateSearchRequest_after_offset by assumption.
    rewrite Hob. exact Hg.
Qed.

Lemma group_allowed_mono st st' c g :
  (∀ l, l ∈ config_maps c → map_deref st l ⊆ map_deref st' l) →
  Spec.group_allowed st c g → Spec.group_allowed st' c g.
Proof.
  intros Hsub. induction g as [op fs gs IH] using FilterGroup_tree_ind.
  intros Hok. inversion Hok as [? ? ? Hop Hfs Hgs]; subst.
  constructor.
  - apply (Hsub (allowedLogicalOperators c)); [|exact Hop].
    unfold config_maps. set_solver.
  - eapply Forall_impl; [exact Hfs|]. intros f [Hf Ho]. split.
    + apply (Hsub (allowedFilterFields c)); [|exact Hf].
      unfold config_maps. set_solver.
    + apply (Hsub (allowedRelationalOperators c)); [|exact Ho].
      unfold config_maps. set_solver.
  - rewrite Forall_forall in IH, Hgs. apply Forall_forall.
    intros sg Hin. apply IH; [exact Hin | apply Hgs; exact Hin].
Qed.

Lemma validateSearchRequest_accepts_under_larger_sets st st' c s :
  (∀ l, l ∈ config_maps c → map_deref st l ⊆ map_deref st' l) →
  validateSearchRequest st c s = None →
  validateSearchRequest st' c s = None.
Proof.
  intros Hsub Hv.
  apply validateSearchRequest_nil_stages in Hv as (Hlim & Hoff & Hob & Hg).
  apply validateSearchRequest_nil_stages.
  split; [exact Hlim|]. split; [exact Hoff|]. split.
  - apply validateOrderBy_nil_iff. apply validateOrderBy_nil_iff in Hob.
    eapply Forall_impl; [exact Hob|]. intros o Ho.
    apply (Hsub (allowedOrderFields c)); [|exact Ho].
    unfold config_maps. set_solver.
  - destruct (Groups s) as [g|]; simpl in *; [|reflexivity].
    apply validateGroup_at_nil_iff. apply validateGroup_at_nil_iff in Hg.
    by apply (group_allowed_mono st st').
Qed.

(** X4: validation is monotone in the allow-sets: a specification accepted
    under some contents of the policy's four sets is accepted under any
    larger contents. *)
Theorem validateSearchRequest_monotone
    (st st' : State) (c : config) (s : SearchRequest) :
  (∀ l, l ∈ config_maps c → map_deref st l ⊆ map_deref st' l) →
  validateSearchRequest st c s = None →
  validateSearchRequest st' c s = None.
Proof. apply validateSearchRequest_accepts_under_larger_sets. Qed.

Lemma group_allowed_at_depth st c root :
  Spec.group_allowed st c root →
  (∀ g, Spec.group_in g root →
        Group_Op g ∈ map_deref st (allowedLogicalOperators c))
  ∧ (∀ f, Spec.filter_in f root →
          Filter_Field f ∈ map_deref st (allowedFilterFields c)
          ∧ Filter_Op f ∈ map_deref st (allowedRelationalOperators c)).
Proof.
  intros Hroot.
  assert (Hall : ∀ g, Spec.group_in g root → Spec.group_allowed st c g).
  { intros g Hin. induction Hin as [|sg root Hsg Hin IH]; [exact Hroot|].
    apply IH. inversion Hroot as [? ? ? _ _ Hgs]; subst. simpl in Hsg.
    rewrite Forall_forall in Hgs. apply Hgs. exact Hsg. }
  split.
  - intros g Hin. specialize (Hall g Hin). inversion Hall; subst. assumption.
  - intros f (g & Hin & Hf). specialize (Hall g Hin).
    inversion Hall as [? ? ? _ Hfs _]; subst. simpl in Hf.
    rewrite Forall_forall in Hfs. apply Hfs. exact Hf.
Qed.

(** X5: an empty allow-set denies: a specification accepted under an empty
    set of filter fields has no filter at any depth of its group tree; one
    accepted under an empty set of order fields has no order clause; one
    accepted under an empty set of logical operators has no root group. *)
Theorem validateSearchRequest_empty_allow_set_denies
    (st : State) (c : config) (s : SearchRequest) :
  validateSearchRequest st c s = None →
  (map_deref st (allowedFilterFields c) = ∅ →
   ∀ root f, Groups s = Some root → ¬ Spec.filter_in f root)
  ∧ (map_deref st (allowedOrderFields c) = ∅ → OrderBy s = [])
  ∧ (map_deref st (allowedLogicalOperators c) = ∅ → Groups s = None).
Proof.
  intros Hv.
  apply validateSearchRequest_nil_stages in Hv as (_ & _ & Hob & Hg).
  split; [|split].
  - intros Hempty root f Hroot Hin. rewrite Hroot in Hg. simpl in Hg.
    apply validateGroup_at_nil_iff in Hg.
    destruct (group_allowed_at_depth st c root Hg) as [_ Hfilters].
    destruct (Hfilters f Hin) as [Hf _]. rewrite Hempty in Hf. set_solver.
  - intros Hempty. apply validateOrderBy_nil_iff in Hob.
    destruct (OrderBy s) as [|o os]; [reflexivity|].
    inversion Hob as [|? ? Ho _]; subst. rewrite Hempty in Ho. set_solver.
  - intros Hempty. destruct (Groups s) as [root|]; [|reflexivity].
    simpl in Hg. apply validateGroup_at_nil_iff in Hg.
    inversion Hg as [? ? ? Hop _ _]; subst. rewrite Hempty in Hop. set_solver.
Qed.

Lemma validateSearchRequest_empty_allow_set_denies_witness :
  let c := (NewSearchHandler [] initial_state).1 in
  let s := {| Groups := Some (mkFilterGroup "and" [] [mkFilterGroup "or" [] []]);
              OrderBy := []; Limit := None; Offset := None |} in
  (map_deref initial_state (allowedFilterFields c) = ∅ →
   ∀ root f, Groups s = Some root → ¬ Spec.filter_in f root)
  ∧ (map_deref initial_state (allowedOrderFields c) = ∅ → OrderBy s = [])
  ∧ (map_deref initial_state (allowedLogicalOperators c) = ∅ → Groups s = None).
Proof.
  apply (validateSearchRequest_empty_allow_set_denies initial_state
           (NewSearchHandler [] initial_state).1).
  vm_compute. reflexivity.
Defined.

(** ** Set-valued options and setters *)

Lemma map_deref_alter_ne f l l' st :
  l ≠ l' → map_deref (set_maps st (alter f l (maps st))) l' = map_deref st l'.
Proof. intros Hne. unfold map_deref. simpl. by rewrite lookup_alter_ne. Qed.

Lemma map_deref_store_all_ne l l' ks st :
  l ≠ l' → map_deref (map_store_all l ks st) l' = map_deref st l'.
Proof.
  intros Hne. unfold map_store_all. revert st.
  induction ks as [|k ks IH]; intros st; simpl; [reflexivity|].
  rewrite IH. by apply map_deref_alter_ne.
Qed.

Lemma map_clear_allocated l st :
  is_Some (maps st !! l) → is_Some (maps (map_clear l st) !! l).
Proof.
  intros Hl. unfold map_clear. simpl. rewrite lookup_alter_eq.
  by apply fmap_is_Some.
Qed.

Lemma replace_at l ks st :
  is_Some (maps st !! l) →
  map_deref (map_store_all l ks (map_clear l st)) l = list_to_set ks
  ∧ (∀ l', l' ≠ l →
       map_deref (map_store_all l ks (map_clear l st)) l' = map_deref st l')
  ∧ globals (map_store_all l ks (map_clear l st)) = globals st.
Proof.
  intros Hl. split; [|split].
  - rewrite map_deref_store_all by (by apply map_clear_allocated).
    rewrite map_deref_clear by exact Hl. set_solver.
  - intros l' Hne. rewrite map_deref_store_all_ne by done.
    by apply map_deref_alter_ne.
  - rewrite map_store_all_globals. reflexivity.
Qed.

(** X6: each "replace" option ([WithLogicalOperators],
    [WithRelationalOperators], [WithFilterFields], [WithOrderFields]) makes
    the set it is about exactly the set of the given items, whatever it
    held, leaves every other map as it was and assigns no field of the
    [config]. *)
Theorem replace_option_sets_exactly
    (mk : list string → Option) (ref : config → loc)
    (items : list string) (c : config) (st : State) :
  (mk, ref) ∈ replace_options →
  is_Some (maps st !! ref c) →
  (mk items c st).1 = c
  ∧ map_deref (mk items c st).2 (ref c) = list_to_set items
  ∧ (∀ l, l ≠ ref c → map_deref (mk items c st).2 l = map_deref st l)
  ∧ globals (mk items c st).2 = globals st.
Proof.
  intros Hin Halloc. unfold replace_options in Hin. set_unfold in Hin.
  destruct_or!; simplify_eq; simpl;
    (split; [reflexivity | by apply replace_at]).
Qed.

Lemma replace_option_sets_exactly_witness :
  let c := config_of_defaults (globals initial_state) in
  let st := (WithOrderFields ["created_at"; "id"; "id"] c
               (SetDefaultOrderFields ["name"] initial_state)).2 in
  map_deref st (allowedOrderFields c) = list_to_set ["created_at"; "id"; "id"]
  ∧ (∀ l, l ≠ allowedOrderFields c →
          map_deref st l
          = map_deref (SetDefaultOrderFields ["name"] initial_state) l).
Proof.
  destruct (replace_option_sets_exactly WithOrderFields allowedOrderFields
              ["created_at"; "id"; "id"]
              (config_of_defaults (globals initial_state))
              (SetDefaultOrderFields ["name"] initial_state))
    as (_ & Hset & Hframe & _).
  - repeat first [apply list_elem_of_here | apply list_elem_of_further].
  - vm_compute. eexists. reflexivity.
  - split; [exact Hset | exact Hframe].
Defined.

(** X7: each "extend" option ([WithExtraFilterFields],
    [WithExtraOrderFields]) adds the given items to what the set already
    holds, leaves every other map as it was and assigns no field of the
    [config]. *)
Theorem extend_option_adds
    (mk : list string → Option) (ref : config → loc)
    (items : list string) (c : config) (st : State) :
  (mk, ref) ∈ extend_options →
  is_Some (maps st !! ref c) →
  (mk items c st).1 = c
  ∧ map_deref (mk items c st).2 (ref c)
    = list_to_set items ∪ map_deref st (ref c)
  ∧ (∀ l, l ≠ ref c → map_deref (mk items c st).2 l = map_deref st l)
  ∧ globals (mk items c st).2 = globals st.
Proof.
  intros Hin Halloc. unfold extend_options in Hin. set_unfold in Hin.
  destruct_or!; simplify_eq; simpl;
    (split; [reflexivity|]);
    (split; [by apply map_deref_store_all|]);
    (split; [intros l Hne; by apply map_deref_store_all_ne
            | apply map_store_all_globals]).
Qed.

Lemma extend_option_adds_witness :
  let c := config_of_defaults (globals initial_state) in
  map_deref (WithExtraFilterFields ["name"; "email"] c
               (SetDefaultFilterFields ["id"] initial_state)).2
    (allowedFilterFields c)
  = list_to_set ["name"; "email"]
    ∪ map_deref (SetDefaultFilterFields ["id"] initial_state)
        (allowedFilterFields c).
Proof.
  destruct (extend_option_adds WithExtraFilterFields allowedFilterFields
              ["name"; "email"]
              (config_of_defaults (globals initial_state))
              (SetDefaultFilterFields ["id"] initial_state))
    as (_ & Hset & _).
  - repeat first [apply list_elem_of_here | apply list_elem_of_further].
  - vm_compute. eexists. reflexivity.
  - exact Hset.
Defined.

(** X8: each setter of a default set ([SetDefaultLogicalOperators],
    [SetDefaultRelationalOperators], [SetDefaultFilterFields],
    [SetDefaultOrderFields]) makes that set exactly the set of the given
    items, leaves every other map as it was and assigns no package
    variable. *)
Theorem default_setter_sets_exactly
    (set : list string → State → State) (ref : Globals → loc)
    (items : list string) (st : State) :
  (set, ref) ∈ replace_setters →
  is_Some (maps st !! ref (globals st)) →
  map_deref (set items st) (ref (globals st)) = list_to_set items
  ∧ (∀ l, l ≠ ref (globals st) → map_deref (set items st) l = map_deref st l)
  ∧ globals (set items st) = globals st.
Proof.
  intros Hin Halloc. unfold replace_setters in Hin. set_unfold in Hin.
  destruct_or!; simplify_eq; by apply replace_at.
Qed.

Lemma default_setter_sets_exactly_witness :
  map_deref (SetDefaultRelationalOperators ["eq"; "in"] initial_state)
    (defaultRelationalOperators (globals initial_state))
  = list_to_set ["eq"; "in"]
  ∧ (∀ l, l ≠ defaultRelationalOperators (globals initial_state) →
          map_deref (SetDefaultRelationalOperators ["eq"; "in"] initial_state) l
          = map_deref initial_state l)
  ∧ globals (SetDefaultRelationalOperators ["eq"; "in"] initial_state)
    = globals initial_state.
Proof.
  apply (default_setter_sets_exactly SetDefaultRelationalOperators
           defaultRelationalOperators ["eq"; "in"] initial_state).
  - repeat first [apply list_elem_of_here | apply list_elem_of_further].
  - vm_compute. eexists. reflexivity.
Defined.

Lemma map_clear_store l k st : map_clear l (map_store l k st) = map_clear l st.
Proof.
  unfold map_clear, map_store, set_maps. simpl. f_equal.
  rewrite alter_alter_eq. reflexivity.
Qed.

Lemma map_clear_store_all l ks st :
  map_clear l (map_store_all l ks st) = map_clear l st.
Proof.
  unfold map_store_all. revert st.
  induction ks as [|k ks IH]; intros st; simpl; [reflexivity|].
  rewrite IH. apply map_clear_store.
Qed.

Lemma map_clear_clear l st : map_clear l (map_clear l st) = map_clear l st.
Proof.
  unfold map_clear, set_maps. simpl. f_equal.
  rewrite alter_alter_eq. reflexivity.
Qed.

Lemma map_store_all_app l ks ks' st :
  map_store_all l (ks ++ ks') st = map_store_all l ks' (map_store_all l ks st).
Proof. unfold map_store_all. apply fold_left_app. Qed.

(** X9: how the options on one set compose.  A "replace" option wipes out
    what any earlier option on the same set did, be it "replace" or "extend";
    two "extend" options in a row amount to one with the items of both. *)
Theorem set_options_compose (a b : list string) (c : config) (st : State) :
  (WithFilterFields b c (WithFilterFields a c st).2).2
  = (WithFilterFields b c st).2
  ∧ (WithFilterFields b c (WithExtraFilterFields a c st).2).2
    = (WithFilterFields b c st).2
  ∧ (WithExtraFilterFields b c (WithExtraFilterFields a c st).2).2
    = (WithExtraFilterFields (a ++ b) c st).2
  ∧ (WithOrderFields b c (WithOrderFields a c st).2).2
    = (WithOrderFields b c st).2
  ∧ (WithOrderFields b c (WithExtraOrderFields a c st).2).2
    = (WithOrderFields b c st).2
  ∧ (WithExtraOrderFields b c (WithExtraOrderFields a c st).2).2
    = (WithExtraOrderFields (a ++ b) c st).2.
Proof.
  simpl.
  rewrite !map_clear_store_all, !map_clear_clear, !map_store_all_app.
  repeat split; reflexivity.
Qed.

(** ** Scalar options: the last one wins *)

Lemma apply_options_cons opt opts c st :
  apply_options (opt :: opts) c st =
  apply_options opts (opt c st).1 (opt c st).2.
Proof. unfold apply_options. simpl. destruct (opt c st). reflexivity. Qed.

Lemma apply_options_app opts opts' c st :
  apply_options (opts ++ opts') c st =
  apply_options opts' (apply_options opts c st).1 (apply_options opts c st).2.
Proof.
  revert c st. induction opts as [|opt opts IH]; intros c st; [reflexivity|].
  rewrite <- app_comm_cons, !apply_options_cons. apply IH.
Qed.

Lemma apply_options_keeps_limit opts c st :
  Forall keeps_limit opts → limit (apply_options opts c st).1 = limit c.
Proof.
  intros Hopts. revert c st.
  induction Hopts as [|opt opts Hopt _ IH]; intros c st; [reflexivity|].
  rewrite apply_options_cons, IH. apply Hopt.
Qed.

Lemma package_option_keeps_limit opt :
  package_option opt → keeps_limit opt ∨ ∃ n, opt = WithLimit n.
Proof.
  intros Hopt. destruct Hopt;
    first [ left; intros c st; reflexivity | right; eexists; reflexivity ].
Qed.

(** X10: the limit ceiling of a handler is decided by the last [WithLimit]
    among its options, and by the default when there is none: a negative
    argument means no ceiling, any other the ceiling itself.  Every option of
    the package other than [WithLimit] leaves the ceiling alone. *)
Theorem limit_last_wins
    (before after : list Option) (n : Z) (st : State) :
  Forall keeps_limit after →
  limit (NewSearchHandler (before ++ WithLimit n :: after) st).1
  = (if n <? 0 then None else Some n)
  ∧ limit (NewSearchHandler after (SetDefaultLimit n st)).1
    = (if n <? 0 then None else Some n)
  ∧ (∀ opt, package_option opt → keeps_limit opt ∨ ∃ m, opt = WithLimit m).
Proof.
  intros Hafter. split; [|split].
  - unfold NewSearchHandler. rewrite apply_options_app.
    rewrite apply_options_cons.
    rewrite apply_options_keeps_limit by exact Hafter. reflexivity.
  - unfold NewSearchHandler.
    rewrite apply_options_keeps_limit by exact Hafter. reflexivity.
  - apply package_option_keeps_limit.
Qed.

Lemma limit_last_wins_witness :
  limit (NewSearchHandler
           ([WithLimit 50; WithFilterFields ["id"]]
            ++ WithLimit (-1) :: [WithSearchMandatory false; WithExtraOrderFields ["id"]])
           initial_state).1 = None.
Proof.
  eapply (limit_last_wins [WithLimit 50; WithFilterFields ["id"]]
            [WithSearchMandatory false; WithExtraOrderFields ["id"]]
            (-1) initial_state).
  repeat constructor.
Defined.

(** ** Extending a set never rejects what was accepted *)

Lemma map_deref_store_superset l k st l' :
  map_deref st l' ⊆ map_deref (map_store l k st) l'.
Proof.
  unfold map_deref, map_store. simpl.
  destruct (decide (l = l')) as [->|Hne].
  - rewrite lookup_alter_eq. destruct (maps st !! l'); simpl; set_solver.
  - rewrite lookup_alter_ne by done. reflexivity.
Qed.

Lemma map_deref_store_all_superset l ks st l' :
  map_deref st l' ⊆ map_deref (map_store_all l ks st) l'.
Proof.
  unfold map_store_all. revert st.
  induction ks as [|k ks IH]; intros st; simpl; [reflexivity|].
  etrans; [apply (map_deref_store_superset l k)| apply IH].
Qed.

Lemma validateSearchRequest_monotone_witness :
  validateSearchRequest
    (WithExtraFilterFields ["name"]
       (config_of_defaults (globals initial_state)) initial_state).2
    (config_of_defaults (globals initial_state))
    {| Groups := Some (mkFilterGroup "or" [] []); OrderBy := [];
       Limit := Some 3; Offset := Some 0 |}
  = None.
Proof.
  apply (validateSearchRequest_monotone initial_state).
  - intros l _. apply map_deref_store_all_superset.
  - vm_compute. reflexivity.
Defined.

(** X11: an "extend" option never turns an accepted specification into a
    rejected one: what a policy accepts before [WithExtraFilterFields] or
    [WithExtraOrderFields] it accepts after. *)
Theorem extend_options_keep_accepted
    (items : list string) (c : config) (st : State) (s : SearchRequest) :
  validateSearchRequest st c s = None →
  validateSearchRequest (WithExtraFilterFields items c st).2 c s = None
  ∧ validateSearchRequest (WithExtraOrderFields items c st).2 c s = None.
Proof.
  intros Hv. split;
    (eapply validateSearchRequest_accepts_under_larger_sets; [|exact Hv]);
    intros l _; apply map_deref_store_all_superset.
Qed.

Lemma extend_options_keep_accepted_witness :
  let c := example_handler.1 in
  let s := {| Groups := Some (mkFilterGroup "and" [mkFilter "id" "eq" "7"] []);
              OrderBy := [mkOrderClause "id" "desc"];
              Limit := Some 10; Offset := None |} in
  validateSearchRequest (WithExtraFilterFields ["name"] c example_handler.2).2 c s
  = None
  ∧ validateSearchRequest (WithExtraOrderFields ["name"] c example_handler.2).2 c s
    = None.
Proof.
  apply extend_options_keep_accepted. vm_compute. reflexivity.
Defined.

(** ** What of the policy validation uses *)

Section PolicyFields.

Variable st : State.
Variables c c' : config.
Hypothesis same_maps : config_maps c = config_maps c'.
Hypothesis same_limit : limit c = limit c'.

Lemma same_maps_fields :
  allowedLogicalOperators c = allowedLogicalOperators c'
  ∧ allowedRelationalOperators c = allowedRelationalOperators c'
  ∧ allowedFilterFields c = allowedFilterFields c'
  ∧ allowedOrderFields c = allowedOrderFields c'.
Proof. unfold config_maps in same_maps. by simplify_eq. Qed.

Lemma validateFilters_policy_fields fs :
  validateFilters st c fs = validateFilters st c' fs.
Proof.
  destruct same_maps_fields as (_ & Hrel & Hfld & _).
  induction fs as [|f fs IH]; simpl; [reflexivity|].
  rewrite Hrel, Hfld, IH. reflexivity.
Qed.

Lemma validateOrderBy_policy_fields os :
  validateOrderBy st c os = validateOrderBy st c' os.
Proof.
  destruct same_maps_fields as (_ & _ & _ & Hord).
  induction os as [|o os IH]; simpl; [reflexivity|].
  rewrite Hord, IH. reflexivity.
Qed.

Lemma validateGroup_at_policy_fields g :
  validateGroup_at st c g = validateGroup_at st c' g.
Proof.
  destruct same_maps_fields as (Hlog & _).
  induction g as [op fs gs IH] using FilterGroup_tree_ind.
  rewrite !validateGroup_at_unfold, Hlog, validateFilters_policy_fields.
  destruct (negb _); [reflexivity|].
  destruct (validateFilters st c' fs); [reflexivity|].
  induction IH as [|sg gs Hsg _ IHgs]; simpl; [reflexivity|].
  rewrite Hsg, IHgs. reflexivity.
Qed.

Lemma validateSearchRequest_policy_fields s :
  validateSearchRequest st c s = validateSearchRequest st c' s.
Proof.
  unfold validateSearchRequest, validateMaxLimit.
  rewrite same_limit, validateOrderBy_policy_fields.
  destruct (Groups s) as [g|]; simpl; [|reflexivity].
  rewrite validateGroup_at_policy_fields. reflexivity.
Qed.

End PolicyFields.

(** X12: of a policy, validation uses only the limit ceiling and the four
    allow-sets: two policies that agree on these give every specification
    the same verdict, whatever their parameter name, mandatory flag and
    error callback. *)
Theorem validateSearchRequest_uses_limit_and_sets_only
    (st : State) (c c' : config) (s : SearchRequest) :
  config_maps c = config_maps c' → limit c = limit c' →
  validateSearchRequest st c s = validateSearchRequest st c' s.
Proof. intros Hmaps Hlimit. by apply validateSearchRequest_policy_fields. Qed.

Lemma validateSearchRequest_uses_limit_and_sets_only_witness :
  validateSearchRequest initial_state
    (NewSearchHandler [WithQueryParam "search"; WithSearchMandatory false;
                       WithErrorHandler (userHandler 1)] initial_state).1
    {| Groups := None; OrderBy := [mkOrderClause "id" "asc"];
       Limit := None; Offset := None |}
  = validateSearchRequest initial_state (NewSearchHandler [] initial_state).1
      {| Groups := None; OrderBy := [mkOrderClause "id" "asc"];
         Limit := None; Offset := None |}.
Proof.
  apply validateSearchRequest_uses_limit_and_sets_only; reflexivity.
Defined.

(** ** The calls of the handler, read backwards *)

Ltac trace_inv :=
  repeat match goal with
  | H : _ ∈ _ |- _ => set_unfold in H; destruct_or?; simplify_eq
  | H : False |- _ => destruct H
  end.

(** X13: every call in the handler's trace has a cause.  The decoder is
    only given the non-empty parameter value; the validator only what the
    decoder returned; the error callback is the policy's, gets the request as
    it came in, and gets the missing-parameter error (empty value, mandatory),
    the decoder's error or the validator's error; the next handler gets either
    the untouched request (empty value, not mandatory) or the request with a
    decoded specification that passed validation. *)
Theorem ServeHTTP_call_inversion
    (json_Decode : string → SearchRequest + error)
    (c : config) (st : State) (r : Request) :
  let v := Values_Get (URL_Query r) (queryParam c) in
  let tr := ServeHTTP json_Decode c st r in
  (∀ input, Decode input ∈ tr → input = v ∧ v ≠ "")
  ∧ (∀ s, Validate s ∈ tr → v ≠ "" ∧ json_Decode v = inl s)
  ∧ (∀ h r0 err, CallErrorHandler h r0 err ∈ tr →
       h = errorHandler c ∧ r0 = r
       ∧ ((v = "" ∧ isSearchMandatory c = true ∧ err = missing_parameter c)
          ∨ (v ≠ "" ∧ json_Decode v = inr err)
          ∨ (v ≠ "" ∧ ∃ s, json_Decode v = inl s
                          ∧ validateSearchRequest st c s = Some err)))
  ∧ (∀ r', ServeNext r' ∈ tr →
       (r' = r ∧ v = "" ∧ isSearchMandatory c = false)
       ∨ (v ≠ "" ∧ ∃ s, json_Decode v = inl s
                       ∧ validateSearchRequest st c s = None
                       ∧ GetSearchRequest r' = Some s
                       ∧ r' = WithContext r
                                (context_WithValue (Context r) searchKey
                                   (SearchRequestPtr s)))).
Proof.
  intros v tr. subst v tr.
  destruct (String.eqb_spec (Values_Get (URL_Query r) (queryParam c)) "")
    as [Hempty|Hne].
  - rewrite (ServeHTTP_empty_value json_Decode c st r Hempty).
    destruct (isSearchMandatory c);
      (split; [|split; [|split]]); intros; trace_inv;
      first [ by repeat split; auto | by left ].
  - rewrite (ServeHTTP_present_value json_Decode c st r Hne). simpl.
    destruct (json_Decode _) as [s|err] eqn:Hdec; simpl;
      [destruct (validateSearchRequest st c s) as [err|] eqn:Hval|];
      (split; [|split; [|split]]); intros; trace_inv.
    all: try by split.
    + split; [done|]. split; [done|]. right; right. split; [done|]. by exists s.
    + right. split; [done|]. by exists s.
    + split; [done|]. split; [done|]. right; left. by split.
Qed.

(** ** The request handed to the next handler *)

Lemma ServeHTTP_next_request
    (json_Decode : string → SearchRequest + error) c st r r' :
  ServeNext r' ∈ ServeHTTP json_Decode c st r →
  r' = r
  ∨ ∃ s, r' = WithContext r
                (context_WithValue (Context r) searchKey (SearchRequestPtr s)).
Proof.
  intros Hin. unfold ServeHTTP in Hin.
  destruct (String.eqb _ ""); [destruct (negb _)|]; trace_inv; [by left|].
  destruct (json_Decode _) as [s|err]; trace_inv.
  destruct (validateSearchRequest st c s); trace_inv.
  right. by exists s.
Qed.

(** X14: the request the next handler receives differs from the incoming
    one at most by the value under the package's own context key: the query
    is the same and the value of every other context key is the same. *)
Theorem ServeHTTP_next_request_frame
    (json_Decode : string → SearchRequest + error)
    (c : config) (st : State) (r r' : Request) :
  ServeNext r' ∈ ServeHTTP json_Decode c st r →
  URL_Query r' = URL_Query r
  ∧ ∀ k, k ≠ searchKey →
         context_Value (Context r') k = context_Value (Context r) k.
Proof.
  intros Hin.
  destruct (ServeHTTP_next_request _ _ _ _ _ Hin) as [->|[s ->]];
    [by split|].
  split; [reflexivity|]. intros k Hk. simpl.
  destruct (decide (searchKey = k)) as [<-|_]; [contradiction | reflexivity].
Qed.

Lemma ServeHTTP_next_request_frame_witness :
  let r := {| URL_Query := {["q" := ["{}"]]};
              Context := [(otherKey "trace-id", otherValue "abc")] |} in
  let r' := WithContext r
              (context_WithValue (Context r) searchKey
                 (SearchRequestPtr empty_request)) in
  URL_Query r' = URL_Query r
  ∧ ∀ k, k ≠ searchKey →
         context_Value (Context r') k = context_Value (Context r) k.
Proof.
  apply (ServeHTTP_next_request_frame example_Decode
           (NewSearchHandler [] initial_state).1 initial_state).
  vm_compute. apply list_elem_of_further, list_elem_of_further, list_elem_of_here.
Defined.

(** X15: reading back what was attached.  [GetSearchRequest] returns the
    specification most recently attached under the package's key, whatever
    lies beneath it; a value attached under any other key does not change its
    answer; a value of another type under the package's key makes it answer
    nil even when a specification lies beneath; and on a context with no
    value it answers nil. *)
Theorem GetSearchRequest_after_WithValue
    (r : Request) (s : SearchRequest) (k : contextKey) (v : contextValue)
    (other : string) :
  GetSearchRequest
    (WithContext r (context_WithValue (Context r) searchKey (SearchRequestPtr s)))
  = Some s
  ∧ (k ≠ searchKey →
     GetSearchRequest (WithContext r (context_WithValue (Context r) k v))
     = GetSearchRequest r)
  ∧ GetSearchRequest
      (WithContext r (context_WithValue (Context r) searchKey (otherValue other)))
    = None
  ∧ GetSearchRequest (WithContext r []) = None.
Proof.
  split; [reflexivity|]. split; [|split; reflexivity].
  intros Hk. unfold GetSearchRequest. simpl.
  destruct (decide (k = searchKey)) as [->|_]; [contradiction | reflexivity].
Qed.

(** ** Two handlers in a row *)

(** X16: when a second search handler is the next handler of a first one
    that attached a specification, the final handler sees the second
    handler's specification if the second handler's parameter decodes and
    validates, and still the first handler's specification if the second
    handler's parameter is empty and not mandatory. *)
Theorem chained_handlers_newest_specification
    (json_Decode : string → SearchRequest + error)
    (c1 c2 : config) (st : State) (r : Request) (s1 : SearchRequest) :
  let v1 := Values_Get (URL_Query r) (queryParam c1) in
  let v2 := Values_Get (URL_Query r) (queryParam c2) in
  let tr := bind_next (ServeHTTP json_Decode c1 st r) (ServeHTTP json_Decode c2 st) in
  v1 ≠ "" → json_Decode v1 = inl s1 → validateSearchRequest st c1 s1 = None →
  (∀ s2, v2 ≠ "" → json_Decode v2 = inl s2 →
         validateSearchRequest st c2 s2 = None →
         ∃ r2, handler_calls tr = [ServeNext r2]
               ∧ GetSearchRequest r2 = Some s2)
  ∧ (v2 = "" → isSearchMandatory c2 = false →
     ∃ r2, handler_calls tr = [ServeNext r2]
           ∧ GetSearchRequest r2 = Some s1).
Proof.
  intros v1 v2 tr Hv1 Hdec1 Hval1. subst v1 v2 tr.
  rewrite (ServeHTTP_present_value json_Decode c1 st r Hv1). simpl.
  rewrite Hdec1. simpl. rewrite Hval1. simpl. rewrite app_nil_r.
  set (r1 := WithContext r _).
  split.
  - intros s2 Hv2 Hdec2 Hval2.
    rewrite (ServeHTTP_present_value json_Decode c2 st r1 Hv2). simpl.
    rewrite Hdec2. simpl. rewrite Hval2. simpl.
    eexists. split; reflexivity.
  - intros Hv2 Hopt.
    rewrite (ServeHTTP_empty_value json_Decode c2 st r1 Hv2), Hopt. simpl.
    eexists. split; reflexivity.
Qed.

Lemma chained_handlers_newest_specification_witness :
  let c1 := (NewSearchHandler [] initial_state).1 in
  let c2 := (NewSearchHandler [WithQueryParam "f"; WithSearchMandatory false]
               initial_state).1 in
  let tr := bind_next (ServeHTTP example_Decode c1 initial_state (example_request "{}"))
              (ServeHTTP example_Decode c2 initial_state) in
  ∃ r2, handler_calls tr = [ServeNext r2]
        ∧ GetSearchRequest r2 = Some empty_request.
Proof.
  destruct (chained_handlers_newest_specification example_Decode
              (NewSearchHandler [] initial_state).1
              (NewSearchHandler [WithQueryParam "f"; WithSearchMandatory false]
                 initial_state).1
              initial_state (example_request "{}") empty_request)
    as [_ Hskip].
  - vm_compute. discriminate.
  - vm_compute. reflexivity.
  - vm_compute. reflexivity.
  - apply Hskip; vm_compute; reflexivity.
Defined.

(** ** Handlers and the maps of the package *)

(** X17: whatever options of the package a handler is built with, in
    whatever order, its four allow-sets are referred to by the references the
    four package variables hold; building it assigns no package variable and
    allocates no map. *)
Theorem NewSearchHandler_uses_package_maps (opts : list Option) (st : State) :
  Forall package_option opts →
  config_maps (NewSearchHandler opts st).1
  = [defaultLogicalOperators (globals st);
     defaultRelationalOperators (globals st);
     defaultFilterFields (globals st);
     defaultOrderFields (globals st)]
  ∧ globals (NewSearchHandler opts st).2 = globals st
  ∧ dom (maps (NewSearchHandler opts st).2) = dom (maps st).
Proof. apply NewSearchHandler_shares_default_maps. Qed.

Lemma NewSearchHandler_uses_package_maps_witness :
  config_maps example_handler.1
  = [defaultLogicalOperators (globals initial_state);
     defaultRelationalOperators (globals initial_state);
     defaultFilterFields (globals initial_state);
     defaultOrderFields (globals initial_state)]
  ∧ globals example_handler.2 = globals initial_state
  ∧ dom (maps example_handler.2) = dom (maps initial_state).
Proof.
  apply NewSearchHandler_uses_package_maps.
  repeat constructor.
Defined.

(** ** Scalar defaults are read when a handler is built *)

Section ScalarDefaults.

Variable st : State.
Variable g : Globals.
Variable c : config.

Lemma validateFilters_set_globals fs :
  validateFilters (set_globals st g) c fs = validateFilters st c fs.
Proof.
  induction fs as [|f fs IH]; simpl; [reflexivity|]. rewrite IH. reflexivity.
Qed.

Lemma validateOrderBy_set_globals os :
  validateOrderBy (set_globals st g) c os = validateOrderBy st c os.
Proof.
  induction os as [|o os IH]; simpl; [reflexivity|]. rewrite IH. reflexivity.
Qed.

Lemma validateGroup_at_set_globals gr :
  validateGroup_at (set_globals st g) c gr = validateGroup_at st c gr.
Proof.
  induction gr as [op fs gs IH] using FilterGroup_tree_ind.
  rewrite !validateGroup_at_unfold, validateFilters_set_globals.
  change (map_has (set_globals st g) (allowedLogicalOperators c) op)
    with (map_has st (allowedLogicalOperators c) op).
  destruct (negb _); [reflexivity|].
  destruct (validateFilters st c fs); [reflexivity|].
  induction IH as [|sg gs Hsg _ IHgs]; simpl; [reflexivity|].
  rewrite Hsg, IHgs. reflexivity.
Qed.

Lemma validateSearchRequest_set_globals s :
  validateSearchRequest (set_globals st g) c s = validateSearchRequest st c s.
Proof.
  unfold validateSearchRequest. rewrite validateOrderBy_set_globals.
  destruct (Groups s) as [gr|]; simpl; [|reflexivity].
  rewrite validateGroup_at_set_globals. reflexivity.
Qed.

End ScalarDefaults.

(** X18: the scalar defaults are copied into a handler when it is built: a
    later [SetDefaultQueryParam], [SetDefaultSearchMandatory],
    [SetDefaultLimit] or [SetDefaultErrorHandler] changes nothing in what the
    handler does with any request. *)
Theorem scalar_setters_do_not_reach_built_handlers
    (json_Decode : string → SearchRequest + error)
    (c : config) (st : State) (r : Request)
    (q : string) (b : bool) (n : Z) (h : ErrorHandler) :
  ServeHTTP json_Decode c (SetDefaultQueryParam q st) r
  = ServeHTTP json_Decode c st r
  ∧ ServeHTTP json_Decode c (SetDefaultSearchMandatory b st) r
    = ServeHTTP json_Decode c st r
  ∧ ServeHTTP json_Decode c (SetDefaultLimit n st) r
    = ServeHTTP json_Decode c st r
  ∧ ServeHTTP json_Decode c (SetDefaultErrorHandler h st) r
    = ServeHTTP json_Decode c st r.
Proof.
  assert (Hany : ∀ g, ServeHTTP json_Decode c (set_globals st g) r
                      = ServeHTTP json_Decode c st r).
  { intros g. unfold ServeHTTP.
    destruct (String.eqb _ ""); [reflexivity|].
    destruct (json_Decode _) as [s|err]; [|reflexivity].
    rewrite validateSearchRequest_set_globals. reflexivity. }
  repeat split; apply Hany.
Qed.
